(** * Qlik script synchronisation: tab codec, catalogue lookup, reload log
      streaming

    A shallow embedding of [src/qlik/qlik_script.py] (class [QlikScript]) and of
    the callers in [src/qlik/qlik.py].

    Conventions of the embedding.
    - A Python [str] is a [string]; a character is an [ascii], so texts range
      over the code points 0..255.  Ordering of strings is the code point
      ordering ([String.compare]), as in Python.
    - A Python [dict] is an association list in insertion order, updated by
      [dict_set]; iteration follows insertion order.
    - The script directory [scripts/<app>/<id>/] is a finite map from the stem
      of each [*.qvs] file to its text; a directory listing ([glob]) is any
      permutation of its entries.  Files are written and read without newline
      translation ([newline=''], or bytes decoded as UTF-8), so the text read
      is the text written.  Opening a file for writing follows the POSIX
      file systems in common use: a name with a NUL or of more than 255
      bytes is refused.  Other failures of the file system (rights, space,
      the length of the whole path) are not covered.
    - Raised exceptions are values of [exn]; a function that may raise returns
      a [result].
    - The remote service is the environment: its decoded answers are the
      arguments of the functions that consume them.  The methods that work
      on the script directory first resolve the application with
      [get_app_by_name]; they are modelled from the point where it is
      resolved, the directory being an argument.  A request whose URL
      carries an identifier is answered by a function of that identifier.
    - The directory [scripts/] is a finite map from the names of the
      directories in it to their directories by application identifier; a
      method that changes it is a function of these directories that returns
      them with its result ([fs]). *)

From Stdlib Require Import String Ascii List Arith Bool Lia.
From Stdlib Require Import Sorting.Sorted Sorting.Permutation.
From Stdlib Require Import Decimal DecimalString DecimalNat.
From stdpp Require Import gmap strings list.

Local Open Scope nat_scope.

(** ** Exceptions and results *)

Inductive exn : Type :=
| ValueError (msg : string)
| KeyError (key : string)
| IndexError
| TypeError
| HTTPError (status_code : nat)
| OSError (errno : nat)
| AttributeError
| JSONDecodeError.

Inductive result (A : Type) : Type :=
| Ok (a : A)
| Raise (e : exn).
Arguments Ok {A} a.
Arguments Raise {A} e.

Definition bind {A B : Type} (r : result A) (k : A -> result B) : result B :=
  match r with
  | Ok a => k a
  | Raise e => Raise e
  end.

Notation "'try' x <- r 'in' k" := (bind r (fun x => k))
  (at level 10, x name, r at level 100, k at level 200).

(** ** Characters and basic string operations *)

Definition CR : ascii := ascii_of_nat 13.
Definition LF : ascii := ascii_of_nat 10.

(** [str.isspace] on one character, which is also the class [\s] of [re] on
    [str] patterns: U+0009..U+000D, U+001C..U+0020, U+0085 and U+00A0 are the
    whitespace code points below 256. *)
Definition py_isspace (c : ascii) : bool :=
  let n := nat_of_ascii c in
  ((9 <=? n) && (n <=? 13)) || ((28 <=? n) && (n <=? 32))
  || (n =? 133) || (n =? 160).

(** The characters excluded by the class [[^\r\n]]. *)
Definition is_eol (c : ascii) : bool :=
  Ascii.eqb c CR || Ascii.eqb c LF.

(** [c in s] for a character [c]. *)
Fixpoint contains_char (c : ascii) (s : string) : bool :=
  match s with
  | EmptyString => false
  | String d s' => Ascii.eqb c d || contains_char c s'
  end.

Definition is_empty (s : string) : bool :=
  match s with
  | EmptyString => true
  | String _ _ => false
  end.

Fixpoint lstrip (s : string) : string :=
  match s with
  | EmptyString => EmptyString
  | String c s' => if py_isspace c then lstrip s' else s
  end.

(** [s.rstrip()] *)
Fixpoint rstrip (s : string) : string :=
  match s with
  | EmptyString => EmptyString
  | String c s' =>
      match rstrip s' with
      | EmptyString =>
          if py_isspace c then EmptyString else String c EmptyString
      | r => String c r
      end
  end.

(** [s.strip()] *)
Definition strip (s : string) : string := rstrip (lstrip s).

(** [s[a:b]] for [0 <= a], [0 <= b]; Python clamps both ends to the string. *)
Definition slice (a b : nat) (s : string) : string :=
  substring a (b - a) s.

(** [s.replace('\r\n', '\r')]: occurrences are replaced from the left and do
    not overlap. *)
Fixpoint replace_crlf (s : string) : string :=
  match s with
  | EmptyString => EmptyString
  | String c s' =>
      match s' with
      | String d s'' =>
          if Ascii.eqb c CR && Ascii.eqb d LF
          then String CR (replace_crlf s'')
          else String c (replace_crlf s')
      | EmptyString => String c EmptyString
      end
  end.

(** [s.replace('\n', '\r')] *)
Fixpoint replace_lf (s : string) : string :=
  match s with
  | EmptyString => EmptyString
  | String c s' => String (if Ascii.eqb c LF then CR else c) (replace_lf s')
  end.

(** [content.replace('\r\n', '\r').replace('\n', '\r')] *)
Definition normalize_eol (s : string) : string :=
  replace_lf (replace_crlf s).

(** The character class of the two [re.sub] calls: less-than, greater-than,
    colon, double quote, slash, backslash, vertical bar, question mark and
    asterisk. *)
Definition is_unsafe (c : ascii) : bool :=
  let n := nat_of_ascii c in
  (n =? 60) || (n =? 62) || (n =? 58) || (n =? 34) || (n =? 47)
  || (n =? 92) || (n =? 124) || (n =? 63) || (n =? 42).

(** [re.sub] of that class by an underscore. *)
Fixpoint sanitize (s : string) : string :=
  match s with
  | EmptyString => EmptyString
  | String c s' => String (if is_unsafe c then "_"%char else c) (sanitize s')
  end.

(** [str(i)] for a non-negative integer. *)
Definition str_of_nat (i : nat) : string :=
  NilEmpty.string_of_uint (Nat.to_uint i).

(** [sep.join(parts)] *)
Fixpoint join (sep : string) (parts : list string) : string :=
  match parts with
  | [] => EmptyString
  | [p] => p
  | p :: ps => p +:+ sep +:+ join sep ps
  end.

(** If [s] starts with [p], what follows [p]. *)
Fixpoint strip_prefix (p s : string) : option string :=
  match p, s with
  | EmptyString, _ => Some s
  | String a p', String b s' =>
      if Ascii.eqb a b then strip_prefix p' s' else None
  | String _ _, EmptyString => None
  end.

(** ** Python dictionaries *)

Definition dict : Type := list (string * string).

(** [d[k] = v]: an existing key keeps its place, a new key goes last. *)
Fixpoint dict_set (k v : string) (d : dict) : dict :=
  match d with
  | [] => [(k, v)]
  | (k', v') :: d' =>
      if String.eqb k k' then (k, v) :: d' else (k', v') :: dict_set k v d'
  end.

(** ** The tab marker pattern

    [tab_pattern = r'///\$tab\s+([^\r\n]+)'], matched by [re.finditer] with no
    flags: the pattern is not anchored, quantifiers are greedy and
    backtrack. *)

(** The longest prefix of [s] made of characters other than CR and LF. *)
Fixpoint span_name (s : string) : string :=
  match s with
  | EmptyString => EmptyString
  | String c s' => if is_eol c then EmptyString else String c (span_name s')
  end.

(** [([^\r\n]+)] at the head of [s]: the captured text. *)
Definition match_name (s : string) : option string :=
  match span_name s with
  | EmptyString => None
  | n => Some n
  end.

(** [\s*([^\r\n]+)] at the head of [s]: the number of whitespace characters
    taken by the star, and the captured text.  The star first takes the
    character and gives it back only when the rest cannot match. *)
Fixpoint match_spaces_name (s : string) : option (nat * string) :=
  match s with
  | EmptyString => None
  | String c s' =>
      if py_isspace c then
        match match_spaces_name s' with
        | Some (k, n) => Some (S k, n)
        | None => option_map (pair 0) (match_name s)
        end
      else option_map (pair 0) (match_name s)
  end.

(** The whole pattern at the head of [s]: the length of the matched text and
    group 1. *)
Definition match_marker (s : string) : option (nat * string) :=
  match strip_prefix "///$tab" s with
  | Some (String c r) =>
      if py_isspace c then
        match match_spaces_name r with
        | Some (k, n) => Some (7 + 1 + k + String.length n, n)
        | None => None
        end
      else None
  | _ => None
  end.

(** A match object: [m.start()], [m.end()], [m.group(1)]. *)
Record re_match : Type := MkMatch {
  m_start : nat;
  m_end : nat;
  m_group1 : string
}.

(** The scan of [re.finditer]: matches are searched from left to right; after
    a match the search resumes at its end.  [skip] counts the characters of
    the last match still to be passed over and [pos] is the position of the
    head of [s] in the script. *)
Fixpoint finditer_from (skip pos : nat) (s : string) : list re_match :=
  match s with
  | EmptyString => []
  | String _ s' =>
      match skip with
      | S k => finditer_from k (S pos) s'
      | O =>
          match match_marker s with
          | Some (len, n) =>
              MkMatch pos (pos + len) n :: finditer_from (len - 1) (S pos) s'
          | None => finditer_from 0 (S pos) s'
          end
      end
  end.

Definition finditer (script : string) : list re_match :=
  finditer_from 0 0 script.

(** ** [parse_script_tabs] *)

(** The [for i, match in enumerate(matches)] loop; [ms] are the matches from
    the [i]-th on, so [matches[i + 1]] is the second element of [ms]. *)
Fixpoint parse_tabs_loop (script : string) (i : nat) (ms : list re_match)
    (tabs : dict) : dict :=
  match ms with
  | [] => tabs
  | m :: ms' =>
      let tab_name := str_of_nat i +:+ "___" +:+ m_group1 m in
      let start_pos := m_end m in
      let end_pos :=
        match ms' with
        | m' :: _ => m_start m'
        | [] => String.length script
        end in
      let tab_content := strip (slice start_pos end_pos script) in
      parse_tabs_loop script (S i) ms' (dict_set tab_name tab_content tabs)
  end.

Definition parse_script_tabs (script : string) : dict :=
  match finditer script with
  | [] => [("Main", strip script)]
  | (m0 :: _) as matches =>
      let first_tab_content := strip (slice 0 (m_start m0) script) in
      let tabs :=
        if is_empty first_tab_content then []
        else dict_set "Main" first_tab_content [] in
      parse_tabs_loop script 0 matches tabs
  end.

(** ** The script directory *)

(** A [*.qvs] file of the directory: its stem ([Path.stem]) and its text. *)
Definition qvs_file : Type := (string * string)%type.
Definition stem (f : qvs_file) : string := fst f.
Definition text (f : qvs_file) : string := snd f.

(** A listing [g] of the directory [dir], as [glob] may return it. *)
Definition listing (dir : gmap string string) (g : list qvs_file) : Prop :=
  g ≡ₚ map_to_list dir.

(** ** Opening a file for writing *)

Definition NUL : ascii := ascii_of_nat 0.

(** The number of bytes of the name [s] as the file system receives it, in
    UTF-8: a code point from 128 on takes two bytes. *)
Fixpoint utf8_length (s : string) : nat :=
  match s with
  | EmptyString => 0
  | String c s' => (if nat_of_ascii c <? 128 then 1 else 2) + utf8_length s'
  end.

(** The longest name of a file, in bytes. *)
Definition NAME_MAX : nat := 255.

(** The error number of a name that is too long. *)
Definition ENAMETOOLONG : nat := 36.

(** [open(file_path, 'w', encoding='utf-8', newline='')] for a file of the
    output directory: a name with a NUL is refused before the file system is
    asked, and the file system refuses a name of more than [NAME_MAX]
    bytes. *)
Definition open_for_writing (file_name : string) : result unit :=
  if contains_char NUL file_name
  then Raise (ValueError "embedded null byte")
  else if NAME_MAX <? utf8_length file_name
       then Raise (OSError ENAMETOOLONG)
       else Ok tt.

(** ** [save_tabs_as_qvs_files] *)

(** The loop over [tabs.items()]: [dir] is the directory so far and [created]
    the value of [created_files] (file names inside the output directory).
    When a file cannot be opened the exception leaves the loop, and the
    directory stays as the tabs before have made it. *)
Fixpoint save_tabs_loop (tabs : dict) (dir : gmap string string)
    (created : list string) : gmap string string * result (list string) :=
  match tabs with
  | [] => (dir, Ok created)
  | (tab_name, content) :: tabs' =>
      let safe_name := sanitize tab_name in
      let normalized_content := normalize_eol content in
      match open_for_writing (safe_name +:+ ".qvs") with
      | Raise e => (dir, Raise e)
      | Ok _ =>
          save_tabs_loop tabs' (<[safe_name := normalized_content]> dir)
            (created ++ [safe_name +:+ ".qvs"])
      end
  end.

(** [dir] is the content of the output directory when the function is
    entered, empty when [mkdir] has just created it.  The directory is
    returned as the function leaves it, also when it raises. *)
Definition save_tabs_as_qvs_files (tabs : dict) (dir : gmap string string)
    : gmap string string * result (list string) :=
  save_tabs_loop tabs dir [].

(** ** Ordering the files *)

(** [lambda x: x.stem[:3] if len(x.stem) >= 3 else x.stem] *)
Definition sort_key (f : qvs_file) : string :=
  if 3 <=? String.length (stem f) then slice 0 3 (stem f) else stem f.

(** The comparison of two keys: ascending, or descending under
    [reverse=True]. *)
Definition key_le (reverse : bool) (k1 k2 : string) : bool :=
  if reverse then String.leb k2 k1 else String.leb k1 k2.

(** [sorted(files, key=sort_key, reverse=reverse)].  Python's sort is stable,
    also under [reverse=True]: files with equal keys keep their order.  The
    result of a stable sort does not depend on the algorithm; it is produced
    here by insertion from the right. *)
Fixpoint insert_sorted (reverse : bool) (x : qvs_file) (l : list qvs_file)
    : list qvs_file :=
  match l with
  | [] => [x]
  | y :: l' =>
      if key_le reverse (sort_key x) (sort_key y) then x :: l
      else y :: insert_sorted reverse x l'
  end.

Fixpoint sorted (reverse : bool) (l : list qvs_file) : list qvs_file :=
  match l with
  | [] => []
  | x :: l' => insert_sorted reverse x (sorted reverse l')
  end.

(** Equality of two paths of the same directory. *)
Definition same_file (f g : qvs_file) : bool := String.eqb (stem f) (stem g).

(** [file_dict = {f.stem: f for f in qvs_files}] followed by a lookup: a later
    file of the listing overrides an earlier one of the same stem. *)
Definition file_dict_get (qvs_files : list qvs_file) (tab_name : string)
    : option qvs_file :=
  List.find (fun f => String.eqb (stem f) tab_name) (rev qvs_files).

(** The branch [if tab_order:] of [combine_tabs_from_files]. *)
Definition order_by_tab_order (tab_order : list string)
    (qvs_files : list qvs_file) : list qvs_file :=
  let named :=
    fold_left (fun ordered_files tab_name =>
                 match file_dict_get qvs_files tab_name with
                 | Some f => ordered_files ++ [f]
                 | None => ordered_files
                 end) tab_order [] in
  fold_left (fun ordered_files f =>
               if existsb (same_file f) ordered_files then ordered_files
               else ordered_files ++ [f]) qvs_files named.

(** [ordered_files.index(qvs_file)], for a file of the list. *)
Fixpoint list_index (f : qvs_file) (l : list qvs_file) : nat :=
  match l with
  | [] => 0
  | g :: l' => if same_file g f then 0 else S (list_index f l')
  end.

(** ** [combine_tabs_from_files] *)

Definition marker (name content : string) : string :=
  "///$tab " +:+ name +:+ String CR content.

(** The loop over [ordered_files]; [files] are the files still to process and
    [combined_script] the fragments appended so far. *)
Fixpoint combine_loop (ordered_files files : list qvs_file)
    (combined_script : list string) : list string :=
  match files with
  | [] => combined_script
  | qvs_file :: files' =>
      let tab_name := stem qvs_file in
      let content := strip (text qvs_file) in
      if is_empty content then combine_loop ordered_files files' combined_script
      else
        let content := normalize_eol content in
        if String.eqb tab_name "Main"
           && (list_index qvs_file ordered_files =? 0)
        then combine_loop ordered_files files' (combined_script ++ [content])
        else combine_loop ordered_files files'
               (combined_script ++ [marker tab_name content])
  end.

(** The block [# Determine order]: a [tab_order] that is [None] or empty
    selects the sort. *)
Definition combine_order (tab_order : option (list string))
    (qvs_files : list qvs_file) : list qvs_file :=
  match tab_order with
  | Some ((_ :: _) as order) => order_by_tab_order order qvs_files
  | _ => sorted true qvs_files
  end.

(** [scripts_path] is the path printed in the error messages; [dir] is [None]
    when the directory does not exist and the listing [glob("*.qvs")]
    otherwise; [tab_order] is [None] for the default argument. *)
Definition combine_tabs_from_files (scripts_path : string)
    (dir : option (list qvs_file)) (tab_order : option (list string))
    : result string :=
  match dir with
  | None =>
      Raise (ValueError ("Directory " +:+ scripts_path +:+ " does not exist"))
  | Some [] => Raise (ValueError ("No .qvs files found in " +:+ scripts_path))
  | Some qvs_files =>
      let ordered_files := combine_order tab_order qvs_files in
      Ok (join (String CR (String CR EmptyString))
            (combine_loop ordered_files ordered_files []))
  end.

(** ** [get_app_script_tabbed] *)

(** [s.split('___')] *)
Fixpoint split_sep (s : string) : list string :=
  match s with
  | EmptyString => [EmptyString]
  | String c s' =>
      match strip_prefix "___" s, s' with
      | Some _, String _ (String _ s3) => EmptyString :: split_sep s3
      | _, _ =>
          match split_sep s' with
          | h :: t => String c h :: t
          | [] => [String c EmptyString]
          end
      end
  end.

(** The loop over [ordered_files]; indexing the split stem raises
    [IndexError] when it has a single element. *)
Fixpoint tabbed_loop (files : list qvs_file) (combined_parts : list string)
    : result (list string) :=
  match files with
  | [] => Ok combined_parts
  | qvs_file :: files' =>
      let tab_name := stem qvs_file in
      let content := text qvs_file in
      let content := if is_empty content then content else rstrip content in
      if is_empty content then tabbed_loop files' combined_parts
      else
        let content := normalize_eol content in
        match nth_error (split_sep tab_name) 1 with
        | Some name =>
            tabbed_loop files' (combined_parts ++ [marker name content])
        | None => Raise IndexError
        end
  end.

(** The order in which [get_app_script_tabbed] reads the files. *)
Definition tabbed_order (qvs_files : list qvs_file) : list qvs_file :=
  sorted false qvs_files.

Definition get_app_script_tabbed (script_dir : string)
    (dir : option (list qvs_file)) : result string :=
  match dir with
  | None =>
      Raise (ValueError ("Directory " +:+ script_dir +:+ " does not exist"))
  | Some [] => Raise (ValueError ("No .qvs files found in " +:+ script_dir))
  | Some qvs_files =>
      let ordered_files := tabbed_order qvs_files in
      try combined_parts <- tabbed_loop ordered_files [] in
      Ok (join (String CR (String CR EmptyString)) combined_parts)
  end.

(** ** [get_app_by_name] *)

(** An entry of the [data] array answered by the items endpoint; a field is
    [None] when the JSON object has no such key. *)
Record catalog_item : Type := MkItem {
  item_name : option string;
  item_resourceId : option string;
  item_id : option string;
  item_spaceId : option string
}.

(** The answer of the spaces endpoint, as [get_space_type] returns it. *)
Record space_info : Type := MkSpace {
  space_type : option string;
  space_name : option string
}.

(** The dictionary [app_dict]; [spaceType] and [spaceName] are [None] when
    the keys are not set. *)
Record app_dict : Type := MkApp {
  sanitizedAppName : string;
  appName : option string;
  appId : option string;
  appItemId : option string;
  spaceId : option string;
  spaceType : option string;
  spaceName : option string
}.

(** [d[key]] on a JSON object. *)
Definition subscript (key : string) (field : option string) : result string :=
  match field with
  | Some v => Ok v
  | None => Raise (KeyError key)
  end.

(** The loop that builds [multiple_apps]. *)
Fixpoint list_apps (response_data : list catalog_item) (multiple_apps : string)
    : result string :=
  match response_data with
  | [] => Ok multiple_apps
  | app :: rest =>
      try name <- subscript "name" (item_name app) in
      try rid <- subscript "resourceId" (item_resourceId app) in
      list_apps rest
        (multiple_apps +:+ String LF (name +:+ " (" +:+ rid +:+ ")"))
  end.

(** The acute accent U+00B4 that quotes the name in the message. *)
Definition acute : string := String (ascii_of_nat 180) EmptyString.

Definition indent12 : string := "            ".

Definition ambiguous_message (app_name multiple_apps : string) : string :=
  "Multiple apps found similar or equal to " +:+ acute +:+ app_name +:+ acute
  +:+ ". " +:+ String LF indent12
  +:+ "Please provide more specific app_name or bothapp_name & app_id"
  +:+ " to disambiguate."
  +:+ String LF indent12
  +:+ "Available apps: " +:+ String LF indent12
  +:+ multiple_apps +:+ String LF indent12.

(** [data] is the value of the key [data] in the answer of the catalogue
    ([None] when the key is absent); [app_id] only narrows the query that
    produced that answer.  [get_space_type] stands for the method of that
    name. *)
Definition get_app_by_name (get_space_type : string -> result space_info)
    (data : option (list catalog_item)) (app_name : string)
    (app_id : option string) : result app_dict :=
  let response_data := default [] data in
  match response_data with
  | [] => Raise (ValueError ("No app found with name " +:+ app_name))
  | app :: others =>
      try multiple_apps <- list_apps response_data EmptyString in
      if 1 <? List.length response_data
      then Raise (ValueError (ambiguous_message app_name multiple_apps))
      else
        let d := MkApp (sanitize (default EmptyString (item_name app)))
                   (item_name app)
                   (item_resourceId app) (item_id app) (item_spaceId app)
                   None None in
        match spaceId d with
        | None => Raise TypeError
        | Some sid =>
            if 0 <? String.length sid then
              try sp1 <- get_space_type sid in
              try ty <- subscript "type" (space_type sp1) in
              try sp2 <- get_space_type sid in
              try nm <- subscript "name" (space_name sp2) in
              Ok (MkApp (sanitizedAppName d) (appName d) (appId d)
                    (appItemId d) (spaceId d) (Some ty) (Some nm))
            else Ok d
        end
  end.

(** ** [reload_app] *)

(** [response.raise_for_status()]: the client and server error codes
    raise. *)
Definition raise_for_status (status_code : nat) : result unit :=
  if (400 <=? status_code) && (status_code <? 600)
  then Raise (HTTPError status_code) else Ok tt.

(** The answer to the POST on the reloads endpoint: the status code and the
    value of the key [id] of the body ([None] when the body has no such
    key). *)
Record reload_response : Type := MkReloadResponse {
  status_code : nat;
  body_id : option string
}.

(** [app] is the outcome of [get_app_by_name]; the value returned is that of
    [reload_data.get("id")], Python's [None] being [None]. *)
Definition reload_app (app : result app_dict) (response : reload_response)
    : result (option string) :=
  try app_info <- app in
  try _ <- raise_for_status (status_code response) in
  let reload_id := body_id response in
  Ok reload_id.

(** ** [stream_reload_log] *)

(** What one call of [get_reload_log] gives: the decoded body, whose keys
    [status] and [log] may be absent, or an exception [e] with [str(e)]. *)
Record log_data : Type := MkLogData {
  ld_status : option string;
  ld_log : option string
}.

Inductive poll_answer : Type :=
| Answered (d : log_data)
| Failed (str_e : string).

(** The dictionaries yielded by the generator. *)
Record update : Type := MkUpdate {
  log : string;
  status : string;
  is_new : bool;
  is_complete : bool
}.

(** What the generator does, in order: a call of [get_reload_log], a [yield],
    a [time.sleep(poll_interval)]. *)
Inductive event : Type :=
| Poll
| Yield (u : update)
| Sleep.

(** How a run ends: the generator returned, or it is about to poll again with
    that [last_log_length]. *)
Inductive outcome : Type :=
| Returned
| Running (last_log_length : nat).

(** [c.upper()] for one character.  Below 256 the letters with a capital
    are a to z, the sharp s (223), whose capital is written SS, and the
    letters 224 to 254 but the division sign (247), whose capitals stand 32
    places before them.  The capitals of the micro sign (181) and of the y
    with diaeresis (255) lie beyond 255, outside the texts of this
    embedding; these two letters are kept. *)
Definition upper_char (c : ascii) : string :=
  let n := nat_of_ascii c in
  if (97 <=? n) && (n <=? 122)
  then String (ascii_of_nat (n - 32)) EmptyString
  else if n =? 223 then "SS"
  else if (224 <=? n) && (n <=? 254) && negb (n =? 247)
  then String (ascii_of_nat (n - 32)) EmptyString
  else String c EmptyString.

(** [s.upper()] *)
Fixpoint upper (s : string) : string :=
  match s with
  | EmptyString => EmptyString
  | String c s' => upper_char c +:+ upper s'
  end.

(** [current_status in ["SUCCEEDED", "FAILED", "CANCELLED"]] *)
Definition is_terminal (current_status : string) : bool :=
  String.eqb current_status "SUCCEEDED" || String.eqb current_status "FAILED"
  || String.eqb current_status "CANCELLED".

(** The body of the [try] up to the [yield]. *)
Definition make_update (clear_on_update : bool) (last_log_length : nat)
    (d : log_data) : update :=
  let current_status := upper (default EmptyString (ld_status d)) in
  let log_content := default EmptyString (ld_log d) in
  let is_new := last_log_length <? String.length log_content in
  if clear_on_update then
    MkUpdate log_content current_status is_new (is_terminal current_status)
  else if is_new then
    let new_log :=
      slice last_log_length (String.length log_content) log_content in
    MkUpdate new_log current_status true (is_terminal current_status)
  else
    MkUpdate EmptyString current_status false (is_terminal current_status).

Definition error_update (str_e : string) : update :=
  MkUpdate ("Error polling reload status: " +:+ str_e +:+ String LF EmptyString)
    "ERROR" true true.

(** The [while True] loop, run against the answers the service gives to the
    successive polls, the consumer asking for every update.  The events are
    those up to the return of the generator, or up to the poll for which no
    answer is supplied. *)
Fixpoint stream_reload_log (clear_on_update : bool) (last_log_length : nat)
    (answers : list poll_answer) : list event * outcome :=
  match answers with
  | [] => ([], Running last_log_length)
  | Failed str_e :: _ => ([Poll; Yield (error_update str_e)], Returned)
  | Answered d :: answers' =>
      let yield_data := make_update clear_on_update last_log_length d in
      let log_content := default EmptyString (ld_log d) in
      let last_log_length' :=
        if last_log_length <? String.length log_content
        then String.length log_content else last_log_length in
      if is_complete yield_data then ([Poll; Yield yield_data], Returned)
      else
        let '(events, o) :=
          stream_reload_log clear_on_update last_log_length' answers' in
        (Poll :: Yield yield_data :: Sleep :: events, o)
  end.

(** The updates a consumer receives. *)
Fixpoint updates (events : list event) : list update :=
  match events with
  | [] => []
  | Yield u :: events' => u :: updates events'
  | _ :: events' => updates events'
  end.

Fixpoint polls (events : list event) : nat :=
  match events with
  | [] => 0
  | Poll :: events' => S (polls events')
  | _ :: events' => polls events'
  end.

(** ** The commands [get] and [set] of [qlik.py] *)

(** [get], from the script text that [get_script] returns: the script
    directory has been emptied, the tabs are written into it.  The value is
    the directory left on disk, also when a file could not be opened and
    the command has raised. *)
Definition get (app_script : string) : gmap string string :=
  let app_script_tabbed := parse_script_tabs app_script in
  fst (save_tabs_as_qvs_files app_script_tabbed ∅).

(** How that [get] ends: it returns [None], or the exception of the file
    that could not be opened leaves it. *)
Definition get_outcome (app_script : string) : result unit :=
  let app_script_tabbed := parse_script_tabs app_script in
  try _ <- snd (save_tabs_as_qvs_files app_script_tabbed ∅) in
  Ok tt.

(** [set]: the text handed to [validate_script_syntax] and to
    [publish_app_script]. *)
Definition set (script_dir : string) (dir : option (list qvs_file))
    : result string :=
  try script_tabbed <- get_app_script_tabbed script_dir dir in
  Ok script_tabbed.

(** ** Answers of the service *)

(** An answer to a request: its status code and what its body gives for the
    keys that the code reads. *)
Record response (A : Type) : Type := MkResponse {
  resp_status : nat;
  resp_json : A
}.
Arguments MkResponse {A} resp_status resp_json.
Arguments resp_status {A} r.
Arguments resp_json {A} r.

(** [f"{x}"] for a value that is a string or [None]. *)
Definition format_value (x : option string) : string := default "None" x.

(** ** [get_script] *)

(** An entry of the array [scripts]: the value of its key [scriptId]. *)
Record script_entry : Type := MkScriptEntry {
  entry_scriptId : option string
}.

(** [not script_id], for the value of [.get("scriptId")]. *)
Definition no_script_id (script_id : option string) : bool :=
  match script_id with
  | None => true
  | Some s => is_empty s
  end.

(** The requests of [get_script], once the application is resolved and its
    directory emptied.  [scripts_of] answers the request for the scripts of
    an application, with the value of the key [scripts]; [script_of] answers
    the request for one script, with the value of the key [script]. *)
Definition fetch_script
    (scripts_of : string -> response (option (list script_entry)))
    (script_of : string -> string -> response (option string))
    (app_info : app_dict) : result string :=
  let app := format_value (appId app_info) in
  let response := scripts_of app in
  try _ <- raise_for_status (resp_status response) in
  let scripts_list := default [] (resp_json response) in
  match scripts_list with
  | [] =>
      Raise (ValueError ("No scripts found in stored file for app " +:+ app))
  | first :: _ =>
      let script_id := entry_scriptId first in
      if no_script_id script_id
      then Raise (ValueError "No scriptId found in the first script entry")
      else
        let response := script_of app (format_value script_id) in
        try _ <- raise_for_status (resp_status response) in
        subscript "script" (resp_json response)
  end.

(** ** The directories of the scripts *)

(** The directory [scripts/] under the project root: for the name of each
    directory in it, the directories that this one holds, each with its
    [*.qvs] files.  Names are directory names proper: a name that is empty,
    [.] or [..] designates another place and is not covered. *)
Abbreviation scripts_tree :=
  (gmap string (gmap string (gmap string string))).

(** A method that changes the directories and may raise: the directories
    are as the method leaves them, also when it raises. *)
Definition fs (A : Type) : Type := scripts_tree -> scripts_tree * result A.

Definition fs_ret {A : Type} (a : A) : fs A := fun tree => (tree, Ok a).

Definition fs_raise {A : Type} (e : exn) : fs A := fun tree => (tree, Raise e).

Definition fs_lift {A : Type} (r : result A) : fs A := fun tree => (tree, r).

Definition fs_bind {A B : Type} (m : fs A) (k : A -> fs B) : fs B :=
  fun tree =>
    match m tree with
    | (tree', Ok a) => k a tree'
    | (tree', Raise e) => (tree', Raise e)
    end.

Notation "'run' x <- m 'then' k" := (fs_bind m (fun x => k))
  (at level 10, x name, m at level 100, k at level 200).

(** [empty_script_directory]: [shutil.rmtree] of the directory named after
    the application, when it exists; the directory tested next is the same
    one, so nothing is left to remove. *)
Definition empty_script_directory (app : result app_dict) : fs unit :=
  run app_info <- fs_lift app then
  fun tree => (delete (sanitizedAppName app_info) tree, Ok tt).

(** [get_script] *)
Definition get_script (app : result app_dict)
    (scripts_of : string -> response (option (list script_entry)))
    (script_of : string -> string -> response (option string)) : fs string :=
  run app_info <- fs_lift app then
  run _ <- empty_script_directory app then
  fs_lift (fetch_script scripts_of script_of app_info).

(** [project_root / "scripts" / name / app_id]: joining a path with [None]
    raises. *)
Definition output_dir_of (app_info : app_dict) : result (string * string) :=
  match appId app_info with
  | Some app_id => Ok (sanitizedAppName app_info, app_id)
  | None => Raise TypeError
  end.

(** [save_tabs_as_qvs_files] on the directories: the output directory is
    created with its parents when absent, then the files are written, up to
    the first that cannot be opened. *)
Definition save_tabs_in_tree (tabs : dict) (app : result app_dict)
    : fs (list string) :=
  run app_info <- fs_lift app then
  run out <- fs_lift (output_dir_of app_info) then
  fun tree =>
    let name_dir := default ∅ (tree !! fst out) in
    let output_dir := default ∅ (name_dir !! snd out) in
    let written := save_tabs_as_qvs_files tabs output_dir in
    (<[fst out := <[snd out := fst written]> name_dir]> tree, snd written).

(** The command [get] of [qlik.py]. *)
Definition get_command (app : result app_dict)
    (scripts_of : string -> response (option (list script_entry)))
    (script_of : string -> string -> response (option string)) : fs unit :=
  run _ <- empty_script_directory app then
  run app_script <- get_script app scripts_of script_of then
  let app_script_tabbed := parse_script_tabs app_script in
  run _ <- save_tabs_in_tree app_script_tabbed app then
  fs_ret tt.

(** The command [rem] of [qlik.py]. *)
Definition rem_command (app : result app_dict) : fs unit :=
  empty_script_directory app.

(** ** [get_app_published_id] and [publish_app] *)

(** An entry of the array [data] of the published items: whether it has the
    key [resourceId], and its value. *)
Record published_item : Type := MkPublished {
  published_resourceId : option string
}.

Definition not_published_message : string :=
  "Published app not found or invalid response structure. "
  +:+ "If app has never been published, publish it once from the UI first.".

(** [items_of] answers the search of the item of an application with the
    value of the key [data] and the entries in it; [published_of] answers
    the request for the published items of a catalogue item. *)
Definition get_app_published_id (app : result app_dict)
    (items_of : string -> response (option (list catalog_item)))
    (published_of : string -> response (option (list published_item)))
    : result string :=
  try app_info <- app in
  let response := items_of (format_value (appId app_info)) in
  try _ <- raise_for_status (resp_status response) in
  try data <- match resp_json response with
              | Some data => Ok data
              | None => Raise (KeyError "data")
              end in
  try first <- match data with
               | first :: _ => Ok first
               | [] => Raise IndexError
               end in
  try app_item_id <- subscript "id" (item_id first) in
  let response := published_of app_item_id in
  try _ <- raise_for_status (resp_status response) in
  let response_data := default [] (resp_json response) in
  match response_data with
  | [] => Raise (ValueError not_published_message)
  | first :: _ =>
      match published_resourceId first with
      | None => Raise (ValueError not_published_message)
      | Some resource_id => Ok resource_id
      end
  end.

(** The value of the key [attributes] in the answer to the request to
    publish: an object, or a value of another kind (null, a number, a text,
    an array), which has no method [get]. *)
Inductive attributes_value : Type :=
| AttributesObject
| AttributesOther.

(** The body of that answer as [response.json()] decodes it: a text that is
    no JSON, an object, with the value of its key [attributes] when it has
    this key, or a JSON value of another kind. *)
Inductive publish_body : Type :=
| NotJson
| JsonObject (attributes : option attributes_value)
| JsonOther.

(** The answer to the request to publish: [response.status_code],
    [response.text] and the decoded body. *)
Record publish_answer : Type := MkPublishAnswer {
  publish_status : nat;
  publish_text : string;
  publish_json : publish_body
}.

(** [response.json()] *)
Definition decode_body (response : publish_answer) : result publish_body :=
  match publish_json response with
  | NotJson => Raise JSONDecodeError
  | body => Ok body
  end.

(** [response_json.get("attributes", {})] *)
Definition get_attributes (response_json : publish_body)
    : result attributes_value :=
  match response_json with
  | JsonObject attributes => Ok (default AttributesObject attributes)
  | _ => Raise AttributeError
  end.

(** [attributes.get('name')], of which only the failure matters: the name
    is printed. *)
Definition get_name (attributes : attributes_value) : result unit :=
  match attributes with
  | AttributesObject => Ok tt
  | AttributesOther => Raise AttributeError
  end.

(** [publish_of] answers the request to publish the application onto the
    published one. *)
Definition publish_app (app : result app_dict)
    (items_of : string -> response (option (list catalog_item)))
    (published_of : string -> response (option (list published_item)))
    (publish_of : string -> string -> publish_answer) : result unit :=
  try app_info <- app in
  try app_published_id <- get_app_published_id app items_of published_of in
  let response :=
    publish_of (format_value (appId app_info)) app_published_id in
  try _ <- raise_for_status (publish_status response) in
  try response_json <- decode_body response in
  try attributes <- get_attributes response_json in
  if negb (publish_status response =? 200)
  then Raise (ValueError ("Failed to publish app: "
                          +:+ str_of_nat (publish_status response) +:+ " "
                          +:+ publish_text response))
  else
    try _ <- get_name attributes in
    Ok tt.

(** ** The dispatch of [qlik.py] *)

Inductive command : Type :=
| CmdGet | CmdSet | CmdRem | CmdLoad | CmdPub | CmdHelp.

(** The keys of [commands]. *)
Definition command_of (tool_to_run : string) : option command :=
  if String.eqb tool_to_run "get" then Some CmdGet
  else if String.eqb tool_to_run "set" then Some CmdSet
  else if String.eqb tool_to_run "rem" then Some CmdRem
  else if String.eqb tool_to_run "load" then Some CmdLoad
  else if String.eqb tool_to_run "pub" then Some CmdPub
  else if String.eqb tool_to_run "help" then Some CmdHelp
  else None.

(** What the module does with the arguments: it calls a command with a name
    and possibly an identifier, or it prints lines and exits with status
    1. *)
Inductive action : Type :=
| Call (c : command) (app_name : string) (app_id : option string)
| CallHelp
| Exit1 (printed : list string).

Definition available : string := "get, set, rem, load, pub, help".

(** [sys.argv] is the list [argv], the name of the program first. *)
Definition dispatch (argv : list string) : action :=
  match nth_error argv 1 with
  | None =>
      Exit1 ["Please provide a function to run.";
             "Available functions: " +:+ available]
  | Some tool_to_run =>
      match command_of tool_to_run with
      | None =>
          Exit1 ["Unknown tool: " +:+ tool_to_run +:+ ". Available: "
                 +:+ available]
      | Some CmdHelp => CallHelp
      | Some c =>
          if List.length argv =? 4 then
            match nth_error argv 2, nth_error argv 3 with
            | Some app_name, Some app_id => Call c app_name (Some app_id)
            | _, _ => Exit1 ["list index out of range"]
            end
          else
            match nth_error argv 2 with
            | Some app_name => Call c app_name None
            | None => Exit1 ["list index out of range"]
            end
      end
  end.

(** * Notions used in the statements *)

(** ** Texts *)

(** [x] occurs in [s]. *)
Definition infix_of (x s : string) : Prop :=
  exists a b : string, s = a +:+ x +:+ b.

(** A text without white space at its head. *)
Definition stripped (s : string) : Prop :=
  match s with
  | EmptyString => True
  | String c _ => py_isspace c = false
  end.

(** The text has no line terminator. *)
Definition one_line (s : string) : Prop := span_name s = s.

(** The text is empty or starts with a line terminator. *)
Definition line_end (s : string) : Prop :=
  match s with
  | EmptyString => True
  | String c _ => is_eol c = true
  end.

(** The position [pos] of [script] is the start of a line. *)
Definition at_line_start (script : string) (pos : nat) : Prop :=
  pos = 0
  \/ exists c : ascii, String.get (pos - 1) script = Some c /\ is_eol c = true.

(** ** Tabs and files *)

(** The keys of a dictionary are distinct and its values stripped. *)
Definition tabs_ok (d : dict) : Prop :=
  List.NoDup (map fst d) /\ Forall (fun kv => stripped (snd kv)) d.

(** The stem contains no occurrence of the separator of three underscores. *)
Definition lacks_separator (s : string) : Prop :=
  forall a b : string, s <> a +:+ "___" +:+ b.

(** The key [k1] may come before the key [k2] in the sort. *)
Definition key_before (reverse : bool) (k1 k2 : string) : Prop :=
  key_le reverse k1 k2 = true.

Definition file_before (reverse : bool) (f g : qvs_file) : Prop :=
  key_before reverse (sort_key f) (sort_key g).

(** The files of one key, in the order of the list. *)
Definition with_key (k : string) (l : list qvs_file) : list qvs_file :=
  List.filter (fun f => String.eqb (sort_key f) k) l.

(** The keys do not decrease along the list. *)
Definition ascending (l : list qvs_file) : Prop :=
  StronglySorted (fun f g => String.leb (sort_key f) (sort_key g) = true) l.

(** The keys do not increase along the list. *)
Definition descending (l : list qvs_file) : Prop :=
  StronglySorted (fun f g => String.leb (sort_key g) (sort_key f) = true) l.

(** ** Errors of the lookup *)

(** The two errors of the lookup, as the method raises them. *)
Definition NotFound (app_name : string) : exn :=
  ValueError ("No app found with name " +:+ app_name).

Definition Ambiguous (app_name multiple_apps : string) : exn :=
  ValueError (ambiguous_message app_name multiple_apps).

(** A catalogue entry carries a name and an identifier. *)
Definition has_name_and_id (app : catalog_item) : Prop :=
  is_Some (item_name app) /\ is_Some (item_resourceId app).

(** The message [msg] shows the name of [app] followed by its identifier in
    brackets. *)
Definition lists_candidate (msg : string) (app : catalog_item) : Prop :=
  exists name rid : string,
    item_name app = Some name /\ item_resourceId app = Some rid
    /\ infix_of (name +:+ " (" +:+ rid +:+ ")") msg.

(** ** Statuses *)

(** The status reads as one of the three final words, whatever the case of
    its letters. *)
Definition final_status (st : string) : Prop :=
  upper st = "SUCCEEDED" \/ upper st = "FAILED" \/ upper st = "CANCELLED".

(** ** Inputs of the examples *)

Definition line1 : string := "line1" +:+ String LF EmptyString.
Definition line1_line2 : string :=
  "line1" +:+ String LF ("line2" +:+ String LF EmptyString).
Definition line2 : string := "line2" +:+ String LF EmptyString.

Definition two_tabs : list qvs_file := [("0___A", "x"); ("1___B", "y")].

Definition script_with_leading_text : string :=
  "A" +:+ String CR ("///$tab X" +:+ String CR "B").

Definition script_marker_mid_line : string :=
  "LOAD 1; ///$tab X" +:+ String CR "B".

Definition script_two_tabs : string :=
  "///$tab A" +:+ String CR ("x" +:+ String CR ("///$tab B" +:+ String CR "y")).

(** A name of 300 letters, and a script whose second tab has that name. *)
Definition long_name : string :=
  string_of_list_ascii (List.repeat "n"%char 300).

Definition script_long_name : string :=
  "///$tab A" +:+ String CR ("x" +:+ String CR
    ("///$tab " +:+ long_name +:+ String CR "y")).

(** ** Matches *)

(** The text is made of white space. *)
Fixpoint all_space (s : string) : bool :=
  match s with
  | EmptyString => true
  | String c s' => py_isspace c && all_space s'
  end.

(** [s[n:]] *)
Fixpoint drop_str (n : nat) (s : string) : string :=
  match n, s with
  | O, _ => s
  | S n', String _ s' => drop_str n' s'
  | S _, EmptyString => EmptyString
  end.

(** The matches follow one another from the position [from]: each starts at
    or after the end of the one before and is not empty. *)
Fixpoint matches_chain (from : nat) (ms : list re_match) : Prop :=
  match ms with
  | [] => True
  | m :: ms' =>
      from <= m_start m /\ m_start m < m_end m /\ matches_chain (m_end m) ms'
  end.

(** The pattern occurs in [script] at the place that [m] reports: the marker
    word, white space, then the captured name up to the end of its line. *)
Definition occurrence (script : string) (m : re_match) : Prop :=
  exists before ws rest : string,
    script = before +:+ "///$tab" +:+ ws +:+ m_group1 m +:+ rest
    /\ String.length before = m_start m
    /\ m_end m = m_start m + 7 + String.length ws + String.length (m_group1 m)
    /\ ws <> EmptyString /\ all_space ws = true
    /\ m_group1 m <> EmptyString /\ one_line (m_group1 m)
    /\ line_end rest.

(** The pattern matches at the position [p] of [script]: the marker word
    stands there, followed by one or more white-space characters and by a
    character that is no line terminator. *)
Definition occurs_at (script : string) (p : nat) : Prop :=
  exists (before ws : string) (c : ascii) (rest : string),
    script = before +:+ "///$tab" +:+ ws +:+ String c rest
    /\ String.length before = p
    /\ ws <> EmptyString /\ all_space ws = true /\ is_eol c = false.

(** [m] is the match of the pattern at the position [m.start()]: the
    white space taken is the longest after which a name can start, as the
    greedy quantifier chooses it, and the name runs to the end of its
    line. *)
Definition greedy_occurrence (script : string) (m : re_match) : Prop :=
  exists before ws rest : string,
    script = before +:+ "///$tab" +:+ ws +:+ m_group1 m +:+ rest
    /\ String.length before = m_start m
    /\ m_end m = m_start m + 7 + String.length ws + String.length (m_group1 m)
    /\ ws <> EmptyString /\ all_space ws = true
    /\ m_group1 m <> EmptyString /\ one_line (m_group1 m)
    /\ line_end rest
    /\ forall (ws' : string) (c' : ascii) (rest' : string),
         ws +:+ m_group1 m +:+ rest = ws' +:+ String c' rest' ->
         all_space ws' = true -> is_eol c' = false ->
         String.length ws' <= String.length ws.

(** The matches [ms] are those found in [script] from left to right from the
    position [from] on: each one is the match at the first position where
    the pattern matches, counted from the end of the match before it, and
    the pattern matches nowhere from the end of the last one on. *)
Fixpoint found_from (script : string) (from : nat) (ms : list re_match)
    : Prop :=
  match ms with
  | [] => forall p : nat, from <= p -> ~ occurs_at script p
  | m :: ms' =>
      from <= m_start m
      /\ (forall p : nat, from <= p < m_start m -> ~ occurs_at script p)
      /\ greedy_occurrence script m
      /\ found_from script (m_end m) ms'
  end.

(** ** The tabs of a script *)

(** The key of the tab opened by the marker of index [i]. *)
Definition tab_key (i : nat) (name : string) : string :=
  str_of_nat i +:+ "___" +:+ name.

(** The tabs opened by the matches [ms], the first of which has the index
    [i]: the content of each runs from the end of its marker to the start
    of the next one, or to the end of the script. *)
Fixpoint numbered_tabs (script : string) (i : nat) (ms : list re_match)
    : dict :=
  match ms with
  | [] => []
  | m :: ms' =>
      let end_pos :=
        match ms' with
        | m' :: _ => m_start m'
        | [] => String.length script
        end in
      (tab_key i (m_group1 m), strip (slice (m_end m) end_pos script))
      :: numbered_tabs script (S i) ms'
  end.

(** The tab [Main] of the text before the first marker, when that text is
    not blank. *)
Definition leading_tab (script : string) (m0 : re_match) : dict :=
  let first_tab_content := strip (slice 0 (m_start m0) script) in
  if is_empty first_tab_content then [] else [("Main", first_tab_content)].

(** The tabs that the matches [ms] delimit in [script]: the text before the
    first match, when it is not blank, and a tab for each match, from the
    end of the match to the start of the next one. *)
Definition tabs_of_matches (script : string) (ms : list re_match) : dict :=
  match ms with
  | [] => [("Main", strip script)]
  | m0 :: _ => leading_tab script m0 ++ numbered_tabs script 0 ms
  end.

(** The keys set so far are [Main] and keys of the indices below [i]. *)
Definition keys_below (i : nat) (tabs : dict) : Prop :=
  forall k : string,
    In k (map fst tabs) ->
    k = "Main" \/ exists (j : nat) (n : string), j < i /\ k = tab_key j n.

Definition is_digit (c : ascii) : bool :=
  let n := nat_of_ascii c in (48 <=? n) && (n <=? 57).

Fixpoint all_digits (s : string) : bool :=
  match s with
  | EmptyString => true
  | String c s' => is_digit c && all_digits s'
  end.

(** ** Files *)

(** A character of the class replaced by [sanitize] occurs in [s]. *)
Fixpoint any_unsafe (s : string) : bool :=
  match s with
  | EmptyString => false
  | String c s' => is_unsafe c || any_unsafe s'
  end.

(** The file written for a tab: the stem and the text. *)
Definition file_of_tab (tab : string * string) : qvs_file :=
  (sanitize (fst tab), normalize_eol (snd tab)).

(** The file of the tab can be opened: the key of the tab has no NUL, and
    its bytes with the four of the extension are at most [NAME_MAX]. *)
Definition writable (tab : string * string) : bool :=
  negb (contains_char NUL (fst tab))
  && (utf8_length (fst tab) + 4 <=? NAME_MAX).

(** A name that designates an entry of the directory in which it is used:
    it is not empty, neither [.] nor [..], has neither slash nor NUL, and
    has at most [NAME_MAX] bytes. *)
Definition proper_name (s : string) : Prop :=
  s <> EmptyString /\ s <> "." /\ s <> ".."
  /\ contains_char "/" s = false /\ contains_char NUL s = false
  /\ utf8_length s <= NAME_MAX.

(** The tabs that come before the first tab whose file cannot be opened. *)
Fixpoint written_tabs (tabs : dict) : dict :=
  match tabs with
  | [] => []
  | tab :: tabs' => if writable tab then tab :: written_tabs tabs' else []
  end.

(** The text of the file is the one that the code writes for the content of
    a tab of a split: stripped, and with carriage returns for line ends. *)
Definition clean_text (t : string) : Prop :=
  contains_char LF t = false /\ strip t = t /\ normalize_eol t = t.

(** Every key is the key of an index from [i] on. *)
Definition keys_from (i : nat) (tabs : dict) : Prop :=
  Forall (fun kv => exists (j : nat) (n : string),
                      i <= j /\ fst kv = tab_key j n) tabs.

(** The stem contains the separator of three underscores. *)
Definition has_separator (s : string) : Prop :=
  exists a b : string, s = a +:+ "___" +:+ b.

(** [tab_name.split('___')[1]], when it exists. *)
Definition tab_name_of (tab_name : string) : string :=
  nth 1 (split_sep tab_name) EmptyString.

(** The file has text left after [rstrip]. *)
Definition has_text (f : qvs_file) : bool := negb (is_empty (rstrip (text f))).

(** What [get_app_script_tabbed] emits for a file with text. *)
Definition tabbed_fragment (f : qvs_file) : string :=
  marker (tab_name_of (stem f)) (normalize_eol (rstrip (text f))).

(** The key of [f] is smaller than the key of [g]. *)
Definition strictly_before (f g : qvs_file) : Prop :=
  String.leb (sort_key g) (sort_key f) = false.

(** The tab has content. *)
Definition has_content (tab : string * string) : bool :=
  negb (is_empty (snd tab)).

(** What [set] publishes for a tab written by [get]. *)
Definition published_fragment (tab : string * string) : string :=
  marker (tab_name_of (sanitize (fst tab))) (normalize_eol (snd tab)).

(** The keys are those of indices from [i] on and below [bound]. *)
Definition keys_between (i bound : nat) (tabs : dict) : Prop :=
  Forall (fun kv => exists (j : nat) (n : string),
                      i <= j < bound /\ fst kv = tab_key j n) tabs.

(** The key of a stem whose index has one digit. *)
Definition digit_key (i : nat) : string :=
  String (ascii_of_nat (48 + i)) "__".

(** ** The answer to the request to publish *)

(** The body is a JSON object whose key [attributes], when it is there,
    has an object as value. *)
Definition object_with_attributes (body : publish_body) : Prop :=
  body = JsonObject None \/ body = JsonObject (Some AttributesObject).

(** ** Polls *)

(** [log_data.get("log", "")] *)
Definition log_of (d : log_data) : string := default EmptyString (ld_log d).

(** Each log of the list extends the log seen before it, starting from
    [prev]. *)
Fixpoint growing (prev : string) (ds : list log_data) : Prop :=
  match ds with
  | [] => True
  | d :: ds' =>
      (exists delta : string, log_of d = prev +:+ delta)
      /\ growing (log_of d) ds'
  end.

(** No update of the list is marked complete. *)
Definition none_complete (us : list update) : Prop :=
  Forall (fun u => is_complete u = false) us.

(** * Properties *)

(** ** Reload log streaming *)

Section Streaming.

Variable clear_on_update : bool.

(** Answers given while the generator is still looping are consumed one by
    one; the run on a longer list of answers extends the run on a prefix
    that leaves the generator running. *)
Lemma stream_reload_log_app (before after : list poll_answer) :
  forall (n0 n : nat) (events : list event),
    stream_reload_log clear_on_update n0 before = (events, Running n) ->
    stream_reload_log clear_on_update n0 (before ++ after)
    = (events ++ fst (stream_reload_log clear_on_update n after),
       snd (stream_reload_log clear_on_update n after)).
Proof.
  induction before as [|a before IH]; intros n0 n events Hrun.
  - simpl in Hrun. injection Hrun as <- <-. simpl.
    now destruct (stream_reload_log clear_on_update n0 after).
  - destruct a as [d|e]; simpl in Hrun |- *; [|discriminate].
    destruct (is_complete (make_update clear_on_update n0 d)); [discriminate|].
    destruct (stream_reload_log clear_on_update _ before) as [ev o] eqn:Hb.
    injection Hrun as <- ->.
    rewrite (IH _ _ _ Hb). reflexivity.
Qed.

Lemma is_complete_make_update (n : nat) (d : log_data) :
  is_complete (make_update clear_on_update n d)
  = is_terminal (upper (default EmptyString (ld_status d))).
Proof.
  unfold make_update.
  destruct clear_on_update; [reflexivity|].
  now destruct (n <? _).
Qed.

Lemma status_make_update (n : nat) (d : log_data) :
  status (make_update clear_on_update n d)
  = upper (default EmptyString (ld_status d)).
Proof.
  unfold make_update.
  destruct clear_on_update; [reflexivity|].
  now destruct (n <? _).
Qed.

Lemma polls_app (e1 e2 : list event) : polls (e1 ++ e2) = polls e1 + polls e2.
Proof.
  induction e1 as [|[|u|] e1 IH]; simpl; auto.
Qed.

Lemma updates_app (e1 e2 : list event) :
  updates (e1 ++ e2) = updates e1 ++ updates e2.
Proof.
  induction e1 as [|[|u|] e1 IH]; simpl; auto. now rewrite IH.
Qed.

(** While the generator is running it has polled once per answer. *)
Lemma polls_running (answers : list poll_answer) :
  forall (n0 n : nat) (events : list event),
    stream_reload_log clear_on_update n0 answers = (events, Running n) ->
    polls events = List.length answers.
Proof.
  induction answers as [|a answers IH]; intros n0 n events Hrun.
  - simpl in Hrun. now injection Hrun as <- _.
  - destruct a as [d|e]; simpl in Hrun; [|discriminate].
    destruct (is_complete _); [discriminate|].
    destruct (stream_reload_log clear_on_update _ answers) as [ev o] eqn:Hb.
    injection Hrun as <- ->. simpl. f_equal. eauto.
Qed.

End Streaming.

(** C6 as stated fails: when the three polls see the empty log, then
    ["line1\n"], then ["line1\nline2\n"], the updates without
    [clear_on_update] carry the empty text, ["line1\n"] and ["line2\n"],
    not ["line1\n"], ["line2\n"] and the empty text. *)
Lemma stream_reload_log_three_polls_counterexample :
  let answers :=
    [Answered (MkLogData (Some "RUNNING") (Some EmptyString));
     Answered (MkLogData (Some "RUNNING") (Some line1));
     Answered (MkLogData (Some "RUNNING") (Some line1_line2))] in
  map log (updates (fst (stream_reload_log false 0 answers)))
  = [EmptyString; line1; line2]
  /\ map log (updates (fst (stream_reload_log false 0 answers)))
     <> [line1; line2; EmptyString].
Proof. split; [reflexivity | discriminate]. Qed.

(** C6, amended.  The reload being unfinished at the first two polls: when
    the three polls see the empty log, ["line1\n"] and ["line1\nline2\n"],
    the updates without [clear_on_update] carry the empty text, ["line1\n"]
    and ["line2\n"]; they carry ["line1\n"], ["line2\n"] and the empty
    text when the polls see ["line1\n"], ["line1\nline2\n"] and the same
    log once more.  With [clear_on_update] each update carries the whole
    log seen at its poll, in both cases. *)
Theorem stream_reload_log_three_polls (st1 st2 st3 : option string) :
  is_terminal (upper (default EmptyString st1)) = false ->
  is_terminal (upper (default EmptyString st2)) = false ->
  let from_empty :=
    [Answered (MkLogData st1 (Some EmptyString));
     Answered (MkLogData st2 (Some line1));
     Answered (MkLogData st3 (Some line1_line2))] in
  let from_line1 :=
    [Answered (MkLogData st1 (Some line1));
     Answered (MkLogData st2 (Some line1_line2));
     Answered (MkLogData st3 (Some line1_line2))] in
  map log (updates (fst (stream_reload_log false 0 from_empty)))
  = [EmptyString; line1; line2]
  /\ map log (updates (fst (stream_reload_log true 0 from_empty)))
     = [EmptyString; line1; line1_line2]
  /\ map log (updates (fst (stream_reload_log false 0 from_line1)))
     = [line1; line2; EmptyString]
  /\ map log (updates (fst (stream_reload_log true 0 from_line1)))
     = [line1; line1_line2; line1_line2].
Proof.
  intros H1 H2 from_empty from_line1. subst from_empty from_line1.
  repeat split;
    cbn [stream_reload_log];
    rewrite !is_complete_make_update; cbn [ld_status ld_log];
    rewrite H1, H2;
    destruct (is_terminal (upper (default EmptyString st3))); reflexivity.
Qed.

Lemma stream_reload_log_three_polls_witness :
  let from_empty :=
    [Answered (MkLogData (Some "QUEUED") (Some EmptyString));
     Answered (MkLogData (Some "reloading") (Some line1));
     Answered (MkLogData (Some "Succeeded") (Some line1_line2))] in
  let from_line1 :=
    [Answered (MkLogData (Some "QUEUED") (Some line1));
     Answered (MkLogData (Some "reloading") (Some line1_line2));
     Answered (MkLogData (Some "Succeeded") (Some line1_line2))] in
  map log (updates (fst (stream_reload_log false 0 from_empty)))
  = [EmptyString; line1; line2]
  /\ map log (updates (fst (stream_reload_log true 0 from_empty)))
     = [EmptyString; line1; line1_line2]
  /\ map log (updates (fst (stream_reload_log false 0 from_line1)))
     = [line1; line2; EmptyString]
  /\ map log (updates (fst (stream_reload_log true 0 from_line1)))
     = [line1; line1_line2; line1_line2].
Proof.
  apply (stream_reload_log_three_polls (Some "QUEUED") (Some "reloading")
           (Some "Succeeded")); reflexivity.
Defined.

(** C7.  Whenever a poll answers with a final status, in any letter case, the
    generator yields the update of that iteration and returns: the run is
    the same whatever answers would follow, it ends with that update marked
    complete, with no sleep after it, and the generator has polled once per
    answer up to that one and never again. *)
Theorem stream_reload_log_stops_on_final_status (clear_on_update : bool)
    (before rest : list poll_answer) (events : list event) (n : nat)
    (st : string) (lg : option string) :
  stream_reload_log clear_on_update 0 before = (events, Running n) ->
  final_status st ->
  let d := MkLogData (Some st) lg in
  let u := make_update clear_on_update n d in
  stream_reload_log clear_on_update 0 (before ++ Answered d :: rest)
  = (events ++ [Poll; Yield u], Returned)
  /\ status u = upper st
  /\ is_complete u = true
  /\ polls (events ++ [Poll; Yield u]) = List.length before + 1.
Proof.
  intros Hrun Hfinal d u.
  assert (Hc : is_complete u = true).
  { subst u d. rewrite is_complete_make_update. simpl.
    unfold is_terminal. destruct Hfinal as [-> | [-> | ->]]; reflexivity. }
  repeat split.
  - rewrite (stream_reload_log_app _ _ _ _ _ _ Hrun).
    cbn [stream_reload_log]. fold d. fold u. now rewrite Hc.
  - subst u d. now rewrite status_make_update.
  - exact Hc.
  - rewrite polls_app, (polls_running _ _ _ _ _ Hrun). reflexivity.
Qed.

Lemma stream_reload_log_stops_on_final_status_witness :
  stream_reload_log false 0
    ([Answered (MkLogData (Some "RUNNING") (Some "a"))]
     ++ Answered (MkLogData (Some "Succeeded") (Some "ab"))
        :: [Answered (MkLogData (Some "RUNNING") (Some "abc"))])
  = ([Poll; Yield (MkUpdate "a" "RUNNING" true false); Sleep]
     ++ [Poll; Yield (MkUpdate "b" "SUCCEEDED" true true)], Returned).
Proof.
  refine (proj1 (stream_reload_log_stops_on_final_status false
            [Answered (MkLogData (Some "RUNNING") (Some "a"))]
            [Answered (MkLogData (Some "RUNNING") (Some "abc"))]
            [Poll; Yield (MkUpdate "a" "RUNNING" true false); Sleep] 1
            "Succeeded" (Some "ab") _ _)).
  - reflexivity.
  - left. reflexivity.
Defined.

(** C8.  When a poll raises, the generator yields one update, which carries
    the text of the error, the status [ERROR], [is_new] and [is_complete],
    and returns: the answers that would follow are not asked for, and the
    failed poll is not repeated. *)
Theorem stream_reload_log_stops_on_error (clear_on_update : bool)
    (before rest : list poll_answer) (events : list event) (n : nat)
    (str_e : string) :
  stream_reload_log clear_on_update 0 before = (events, Running n) ->
  let u := MkUpdate ("Error polling reload status: " +:+ str_e
                     +:+ String LF EmptyString)
             "ERROR" true true in
  stream_reload_log clear_on_update 0 (before ++ Failed str_e :: rest)
  = (events ++ [Poll; Yield u], Returned)
  /\ updates (events ++ [Poll; Yield u]) = updates events ++ [u]
  /\ polls (events ++ [Poll; Yield u]) = List.length before + 1.
Proof.
  intros Hrun u. repeat split.
  - now rewrite (stream_reload_log_app _ _ _ _ _ _ Hrun).
  - now rewrite updates_app.
  - rewrite polls_app, (polls_running _ _ _ _ _ Hrun). reflexivity.
Qed.

Lemma stream_reload_log_stops_on_error_witness :
  stream_reload_log true 0
    ([Answered (MkLogData (Some "RUNNING") (Some "a"))]
     ++ Failed "timed out"
        :: [Answered (MkLogData (Some "RUNNING") (Some "abc"))])
  = ([Poll; Yield (MkUpdate "a" "RUNNING" true false); Sleep]
     ++ [Poll;
         Yield (MkUpdate
                  ("Error polling reload status: " +:+ "timed out"
                   +:+ String LF EmptyString) "ERROR" true true)], Returned).
Proof.
  refine (proj1 (stream_reload_log_stops_on_error true
            [Answered (MkLogData (Some "RUNNING") (Some "a"))]
            [Answered (MkLogData (Some "RUNNING") (Some "abc"))]
            [Poll; Yield (MkUpdate "a" "RUNNING" true false); Sleep] 1
            "timed out" _)).
  reflexivity.
Defined.

(** ** Strings *)

#[local] Arguments String.append : simpl nomatch.

Lemma append_nil_r (s : string) : s +:+ EmptyString = s.
Proof. induction s as [|c s IH]; simpl; [reflexivity | now rewrite IH]. Qed.

Lemma append_assoc (s1 s2 s3 : string) : (s1 +:+ s2) +:+ s3 = s1 +:+ s2 +:+ s3.
Proof. induction s1 as [|c s1 IH]; simpl; [reflexivity | now rewrite IH]. Qed.

Lemma length_append (s1 s2 : string) :
  String.length (s1 +:+ s2) = String.length s1 + String.length s2.
Proof. induction s1 as [|c s1 IH]; simpl; [reflexivity | now rewrite IH]. Qed.

Lemma infix_of_refl (x : string) : infix_of x x.
Proof. exists EmptyString, EmptyString. simpl. now rewrite append_nil_r. Qed.

Lemma infix_of_app_l (x s t : string) : infix_of x s -> infix_of x (t +:+ s).
Proof.
  intros (a & b & ->). exists (t +:+ a), b. now rewrite append_assoc.
Qed.

Lemma infix_of_app_r (x s t : string) : infix_of x s -> infix_of x (s +:+ t).
Proof.
  intros (a & b & ->). exists a, (b +:+ t). now rewrite !append_assoc.
Qed.

(** ** Resolving an application name *)

Lemma lists_candidate_app_r (s t : string) (app : catalog_item) :
  lists_candidate s app -> lists_candidate (s +:+ t) app.
Proof.
  intros (name & rid & Hn & Hr & Hi).
  exists name, rid. eauto using infix_of_app_r.
Qed.

Lemma lists_candidate_app_l (s t : string) (app : catalog_item) :
  lists_candidate s app -> lists_candidate (t +:+ s) app.
Proof.
  intros (name & rid & Hn & Hr & Hi).
  exists name, rid. eauto using infix_of_app_l.
Qed.

(** The loop over the entries keeps what was accumulated and adds a line for
    each entry. *)
Lemma list_apps_lists_all (items : list catalog_item) :
  Forall has_name_and_id items ->
  forall acc : string,
  exists added : string,
    list_apps items acc = Ok (acc +:+ added)
    /\ Forall (lists_candidate added) items.
Proof.
  induction 1 as [|app items [[name Hn] [rid Hr]] _ IH]; intros acc.
  - exists EmptyString. simpl. now rewrite append_nil_r.
  - simpl. rewrite Hn, Hr. simpl.
    destruct (IH (acc +:+ String LF (name +:+ " (" +:+ rid +:+ ")")))
      as (added & Heq & Hall).
    exists (String LF (name +:+ " (" +:+ rid +:+ ")") +:+ added). split.
    + etransitivity; [exact Heq|]. now rewrite append_assoc.
    + constructor.
      * exists name, rid. repeat split; trivial.
        apply infix_of_app_r.
        apply (infix_of_app_l _ _ (String LF EmptyString)).
        apply infix_of_refl.
      * eapply Forall_impl; [exact Hall|].
        intros a Ha. now apply lists_candidate_app_l.
Qed.

(** C5.  A lookup that matches no catalogue entry raises the not-found error.
    A lookup without application identifier that matches two entries or
    more raises the ambiguity error, whose message shows the name and the
    identifier of every one of the entries. *)
Theorem get_app_by_name_not_found_or_ambiguous
    (get_space_type : string -> result space_info) (app_name : string) :
  (forall (data : option (list catalog_item)) (app_id : option string),
      default [] data = [] ->
      get_app_by_name get_space_type data app_name app_id
      = Raise (NotFound app_name))
  /\ (forall items : list catalog_item,
         2 <= List.length items ->
         Forall has_name_and_id items ->
         exists multiple_apps : string,
           get_app_by_name get_space_type (Some items) app_name None
           = Raise (Ambiguous app_name multiple_apps)
           /\ Forall
                (lists_candidate (ambiguous_message app_name multiple_apps))
                items).
Proof.
  split.
  - intros data app_id Hnone. unfold get_app_by_name. now rewrite Hnone.
  - intros items Hlen Hwf.
    destruct (list_apps_lists_all items Hwf EmptyString)
      as (added & Heq & Hall).
    exists added. split.
    + unfold get_app_by_name. simpl default.
      destruct items as [|app others]; [simpl in Hlen; lia|].
      rewrite Heq. simpl bind.
      destruct others as [|app' others]; [simpl in Hlen; lia | reflexivity].
    + eapply Forall_impl; [exact Hall|].
      intros a Ha. unfold ambiguous_message.
      do 11 apply lists_candidate_app_l.
      now apply lists_candidate_app_r.
Qed.

Lemma get_app_by_name_not_found_or_ambiguous_witness :
  get_app_by_name (fun _ => Ok (MkSpace None None)) (Some []) "Sales" None
  = Raise (NotFound "Sales")
  /\ exists multiple_apps : string,
       get_app_by_name (fun _ => Ok (MkSpace None None))
         (Some [MkItem (Some "Sales") (Some "id-1") None None;
                MkItem (Some "Sales EU") (Some "id-2") None None])
         "Sales" None
       = Raise (Ambiguous "Sales" multiple_apps).
Proof.
  pose proof (get_app_by_name_not_found_or_ambiguous
                (fun _ => Ok (MkSpace None None)) "Sales") as [H0 H2].
  split.
  - apply H0. reflexivity.
  - destruct (H2 [MkItem (Some "Sales") (Some "id-1") None None;
                  MkItem (Some "Sales EU") (Some "id-2") None None])
      as (m & Hm & _).
    + simpl. lia.
    + repeat constructor; simpl; eauto.
    + exists m. exact Hm.
Defined.

(** ** Submitting a reload *)

Lemma reload_app_returns_id (app_info : app_dict) (code : nat) (id : string) :
  raise_for_status code = Ok tt ->
  reload_app (Ok app_info) (MkReloadResponse code (Some id)) = Ok (Some id).
Proof.
  intros H. unfold reload_app, bind. cbn [status_code body_id]. now rewrite H.
Qed.

Lemma reload_app_http_error (app_info : app_dict) (code : nat)
    (id : option string) :
  400 <= code < 600 ->
  reload_app (Ok app_info) (MkReloadResponse code id) = Raise (HTTPError code).
Proof.
  intros [Hlo Hhi]. unfold reload_app, raise_for_status, bind.
  cbn [status_code].
  rewrite (proj2 (Nat.leb_le 400 code) Hlo).
  rewrite (proj2 (Nat.ltb_lt code 600) Hhi). reflexivity.
Qed.

(** C9, at a body without the key [id]: whenever the status code of the
    answer is not a client or server error, no error is raised and the
    method returns [None]. *)
Theorem reload_app_missing_id (app_info : app_dict) (code : nat) :
  code < 400 \/ 600 <= code ->
  reload_app (Ok app_info) (MkReloadResponse code None) = Ok None.
Proof.
  intros Hcode. unfold reload_app, raise_for_status, bind.
  cbn [status_code body_id].
  destruct Hcode as [Hlo|Hhi].
  - now rewrite (proj2 (Nat.leb_gt 400 code) Hlo).
  - rewrite (proj2 (Nat.ltb_ge code 600) Hhi). now rewrite andb_false_r.
Qed.

Lemma reload_app_missing_id_witness :
  reload_app
    (Ok (MkApp "Sales" (Some "Sales") (Some "id-1") (Some "item-1")
           (Some "space-1") (Some "shared") (Some "Team")))
    (MkReloadResponse 201 None)
  = Ok None.
Proof.
  apply (reload_app_missing_id
           (MkApp "Sales" (Some "Sales") (Some "id-1") (Some "item-1")
              (Some "space-1") (Some "shared") (Some "Team")) 201).
  left. lia.
Defined.

(** ** The order in which the files are read *)

Section Ordering.

Variable reverse : bool.

Lemma key_before_total (k1 k2 : string) :
  key_before reverse k1 k2 \/ key_before reverse k2 k1.
Proof.
  unfold key_before, key_le.
  destruct reverse;
    destruct (String.leb_total k1 k2) as [H|H]; rewrite H; auto.
Qed.

Lemma key_before_refl (k : string) : key_before reverse k k.
Proof. now destruct (key_before_total k k). Qed.

Lemma string_leb_trans (k1 k2 k3 : string) :
  String.leb k1 k2 = true -> String.leb k2 k3 = true -> String.leb k1 k3 = true.
Proof.
  intros H12%Is_true_true H23%Is_true_true. apply Is_true_true.
  change (String.le k1 k3). transitivity k2; assumption.
Qed.

Lemma key_before_trans (k1 k2 k3 : string) :
  key_before reverse k1 k2 ->
  key_before reverse k2 k3 ->
  key_before reverse k1 k3.
Proof.
  unfold key_before, key_le. destruct reverse; eauto using string_leb_trans.
Qed.

Lemma insert_sorted_perm (x : qvs_file) (l : list qvs_file) :
  insert_sorted reverse x l ≡ₚ x :: l.
Proof.
  induction l as [|y l IH]; simpl; [reflexivity|].
  destruct (key_le reverse (sort_key x) (sort_key y)); [reflexivity|].
  rewrite IH. apply perm_swap.
Qed.

Lemma sorted_perm (l : list qvs_file) : sorted reverse l ≡ₚ l.
Proof.
  induction l as [|x l IH]; simpl; [reflexivity|].
  rewrite insert_sorted_perm. now rewrite IH.
Qed.

Lemma insert_sorted_ordered (x : qvs_file) (l : list qvs_file) :
  StronglySorted (file_before reverse) l ->
  StronglySorted (file_before reverse) (insert_sorted reverse x l).
Proof.
  induction 1 as [|y l Hl IH Hy]; simpl.
  - repeat constructor.
  - destruct (key_le reverse (sort_key x) (sort_key y)) eqn:Hxy.
    + constructor; [now constructor|].
      constructor; [exact Hxy|].
      eapply Forall_impl; [exact Hy|].
      intros z Hz. eapply key_before_trans; [exact Hxy | exact Hz].
    + constructor; [exact IH|].
      rewrite insert_sorted_perm. constructor; [|exact Hy].
      destruct (key_before_total (sort_key x) (sort_key y)) as [H|H];
        [unfold key_before in H; congruence | exact H].
Qed.

Lemma sorted_ordered (l : list qvs_file) :
  StronglySorted (file_before reverse) (sorted reverse l).
Proof.
  induction l as [|x l IH]; simpl; [constructor|].
  now apply insert_sorted_ordered.
Qed.

Lemma insert_sorted_stable (k : string) (x : qvs_file) (l : list qvs_file) :
  with_key k (insert_sorted reverse x l) = with_key k (x :: l).
Proof.
  induction l as [|y l IH]; [reflexivity|].
  simpl insert_sorted.
  destruct (key_le reverse (sort_key x) (sort_key y)) eqn:Hxy; [reflexivity|].
  unfold with_key in *. simpl in *. rewrite IH.
  destruct (String.eqb_spec (sort_key x) k) as [Hx|Hx];
    destruct (String.eqb_spec (sort_key y) k) as [Hy|Hy]; try reflexivity.
  exfalso. rewrite Hx, Hy in Hxy.
  pose proof (key_before_refl k) as Hk. unfold key_before in Hk. congruence.
Qed.

Lemma sorted_stable (k : string) (l : list qvs_file) :
  with_key k (sorted reverse l) = with_key k l.
Proof.
  induction l as [|x l IH]; [reflexivity|].
  simpl sorted. rewrite insert_sorted_stable.
  unfold with_key in *. simpl. now rewrite IH.
Qed.

End Ordering.

(** The first three characters are the key of a stem that has them. *)
Lemma sort_key_prefix (f : qvs_file) :
  3 <= String.length (stem f) -> sort_key f = substring 0 3 (stem f).
Proof.
  intros H. unfold sort_key, slice.
  now rewrite (proj2 (Nat.leb_le _ _) H).
Qed.

(** An empty order list is no order list. *)
Lemma combine_order_empty (qvs_files : list qvs_file) :
  combine_order (Some []) qvs_files = combine_order None qvs_files.
Proof. reflexivity. Qed.

(** C2 as stated fails on the directory of the tabs [0___A] and [1___B]:
    [combine_tabs_from_files], given no order list, reads [1___B] first,
    which is not the ascending order, and [get_app_script_tabbed] reads
    [0___A] first, which is not the descending order. *)
Lemma default_order_counterexample :
  combine_order None two_tabs = [("1___B", "y"); ("0___A", "x")]
  /\ ~ ascending (combine_order None two_tabs)
  /\ tabbed_order two_tabs = [("0___A", "x"); ("1___B", "y")]
  /\ ~ descending (tabbed_order two_tabs).
Proof.
  split; [reflexivity|]. split.
  - intros H. inversion H as [|? ? _ Hall]; subst.
    inversion Hall as [|? ? Hle _]; subst. discriminate Hle.
  - split; [reflexivity|].
    intros H. inversion H as [|? ? _ Hall]; subst.
    inversion Hall as [|? ? Hle _]; subst. discriminate Hle.
Qed.

(** C2, amended.  [get_app_script_tabbed], the reading used for publishing,
    which takes no order list, reads every file of the directory once, by
    ascending key, the key of a file being the first three characters of
    its stem (the stem itself when it is shorter).  The descending sort on
    that key is the one of [combine_tabs_from_files], the function that
    accepts an order list, when none is given.  In both, files of equal key
    are read in the order of the listing. *)
Theorem default_orders (qvs_files : list qvs_file) :
  (tabbed_order qvs_files ≡ₚ qvs_files
   /\ ascending (tabbed_order qvs_files)
   /\ forall k, with_key k (tabbed_order qvs_files) = with_key k qvs_files)
  /\ (combine_order None qvs_files ≡ₚ qvs_files
      /\ descending (combine_order None qvs_files)
      /\ forall k,
           with_key k (combine_order None qvs_files) = with_key k qvs_files).
Proof.
  unfold tabbed_order, combine_order. split.
  - split; [apply sorted_perm|].
    split; [apply (sorted_ordered false) | intros k; apply sorted_stable].
  - split; [apply sorted_perm|].
    split; [apply (sorted_ordered true) | intros k; apply sorted_stable].
Qed.

(** ** Stems without separator in the publishing path *)

Lemma lacks_separator_tail (c : ascii) (s : string) :
  lacks_separator (String c s) -> lacks_separator s.
Proof.
  intros H a b ->. apply (H (String c a) b). reflexivity.
Qed.

Lemma strip_prefix_Some (p s r : string) :
  strip_prefix p s = Some r -> s = p +:+ r.
Proof.
  revert s. induction p as [|a p IH]; intros [|b s] H; simpl in H.
  - now injection H as <-.
  - now injection H as <-.
  - discriminate.
  - destruct (Ascii.eqb_spec a b) as [->|]; [|discriminate].
    simpl. f_equal. now apply IH.
Qed.

Lemma strip_prefix_app (p r : string) : strip_prefix p (p +:+ r) = Some r.
Proof.
  induction p as [|a p IH]; simpl; [now destruct r|].
  now rewrite Ascii.eqb_refl.
Qed.

(** Splitting a stem without separator gives the stem alone. *)
Lemma split_sep_lacks_separator (s : string) :
  lacks_separator s -> split_sep s = [s].
Proof.
  induction s as [|c s IH]; intros Hs; [reflexivity|].
  cbn [split_sep].
  destruct (strip_prefix "___" (String c s)) as [r|] eqn:Hp.
  - apply strip_prefix_Some in Hp. exfalso. apply (Hs EmptyString r). exact Hp.
  - rewrite (IH (lacks_separator_tail _ _ Hs)). reflexivity.
Qed.

Lemma lacks_separator_Main : lacks_separator "Main".
Proof.
  intros a b H.
  destruct a as [|? [|? [|? [|? [|? a]]]]]; simpl in H; discriminate H.
Qed.

Lemma rstrip_nonempty_text (s : string) :
  rstrip s <> EmptyString -> is_empty s = false.
Proof. destruct s; [intros H; now contradiction H | reflexivity]. Qed.

Lemma is_empty_false (s : string) : s <> EmptyString -> is_empty s = false.
Proof. destruct s; [intros H; now contradiction H | reflexivity]. Qed.

(** The loop raises as soon as the directory holds a file with text whose
    stem has no separator: it is reached unless the loop has raised
    before. *)
Lemma tabbed_loop_raises (f : qvs_file) (files : list qvs_file) :
  In f files ->
  lacks_separator (stem f) ->
  rstrip (text f) <> EmptyString ->
  forall combined_parts : list string,
    tabbed_loop files combined_parts = Raise IndexError.
Proof.
  intros Hin Hsep Htext.
  induction files as [|g files IH]; intros parts; [contradiction Hin|].
  cbn [tabbed_loop].
  destruct Hin as [->|Hin].
  - rewrite (rstrip_nonempty_text _ Htext).
    rewrite (is_empty_false _ Htext).
    now rewrite (split_sep_lacks_separator _ Hsep).
  - destruct (is_empty (if is_empty (text g) then text g else rstrip (text g)));
      [now apply IH|].
    destruct (nth_error (split_sep (stem g)) 1); [now apply IH | reflexivity].
Qed.

Lemma get_app_script_tabbed_raises (script_dir : string) (f : qvs_file)
    (qvs_files : list qvs_file) :
  In f qvs_files ->
  lacks_separator (stem f) ->
  rstrip (text f) <> EmptyString ->
  get_app_script_tabbed script_dir (Some qvs_files) = Raise IndexError.
Proof.
  intros Hin Hsep Htext. unfold get_app_script_tabbed.
  destruct qvs_files as [|g files]; [contradiction Hin|].
  rewrite (tabbed_loop_raises f); trivial.
  apply (Permutation_in f (Permutation_sym (sorted_perm false (g :: files)))).
  exact Hin.
Qed.

(** ** What [get] leaves in the directory *)

Lemma lstrip_stripped (s : string) : stripped (lstrip s).
Proof.
  induction s as [|c s IH]; simpl; [exact I|].
  destruct (py_isspace c) eqn:Hc; [exact IH | exact Hc].
Qed.

Lemma rstrip_head (c : ascii) (s : string) :
  py_isspace c = false -> exists r : string, rstrip (String c s) = String c r.
Proof.
  intros Hc. cbn [rstrip]. rewrite Hc. destruct (rstrip s); eauto.
Qed.

Lemma rstrip_stripped (s : string) : stripped s -> stripped (rstrip s).
Proof.
  destruct s as [|c s]; [trivial|]. intros Hc.
  destruct (rstrip_head c s Hc) as [r ->]. exact Hc.
Qed.

Lemma strip_stripped (s : string) : stripped (strip s).
Proof. apply rstrip_stripped, lstrip_stripped. Qed.

Lemma py_isspace_eol (c : ascii) : py_isspace c = false -> is_eol c = false.
Proof.
  intros Hc. unfold is_eol.
  destruct (Ascii.eqb_spec c CR) as [->|]; [discriminate Hc|].
  destruct (Ascii.eqb_spec c LF) as [->|]; [discriminate Hc | reflexivity].
Qed.

Lemma normalize_eol_head (c : ascii) (s : string) :
  py_isspace c = false ->
  exists r : string, normalize_eol (String c s) = String c r.
Proof.
  intros Hc. apply py_isspace_eol in Hc. unfold is_eol in Hc.
  apply orb_false_iff in Hc as [Hcr Hlf].
  unfold normalize_eol. destruct s as [|d s]; cbn [replace_crlf].
  - cbn [replace_lf]. rewrite Hlf. eauto.
  - rewrite Hcr. cbn [andb replace_lf]. rewrite Hlf. eauto.
Qed.

(** A stripped text that is not empty still has text after it has been
    written by [save_tabs_as_qvs_files] and read back by
    [get_app_script_tabbed]. *)
Lemma rstrip_normalize_eol_nonempty (s : string) :
  stripped s -> s <> EmptyString -> rstrip (normalize_eol s) <> EmptyString.
Proof.
  destruct s as [|c s]; [intros _ H; now contradiction H|].
  intros Hc _.
  destruct (normalize_eol_head c s Hc) as [r ->].
  destruct (rstrip_head c r Hc) as [r' ->]. discriminate.
Qed.

Lemma dict_set_keys (k v : string) (d : dict) :
  forall k' : string,
    In k' (map fst (dict_set k v d)) <-> k' = k \/ In k' (map fst d).
Proof.
  induction d as [|[k1 v1] d IH]; intros k'; simpl.
  - intuition congruence.
  - destruct (String.eqb_spec k k1) as [->|Hne]; simpl; [intuition congruence|].
    rewrite IH. intuition congruence.
Qed.

Lemma dict_set_ok (k v : string) (d : dict) :
  stripped v -> tabs_ok d -> tabs_ok (dict_set k v d).
Proof.
  intros Hv. induction d as [|[k1 v1] d IH]; intros [Hnd Hall]; simpl.
  - split; [constructor; [intros [] | constructor] | now constructor].
  - inversion Hnd as [|? ? Hnotin Hnd']; subst.
    inversion Hall as [|? ? Hv1 Hall']; subst.
    destruct (String.eqb_spec k k1) as [->|Hne].
    + split; simpl; [exact Hnd | now constructor].
    + destruct (IH (conj Hnd' Hall')) as [IH1 IH2].
      split; simpl; [|now constructor].
      constructor; [|exact IH1].
      rewrite dict_set_keys.
      intros [->|Hin]; [now apply Hne | now apply Hnotin].
Qed.

Lemma parse_tabs_loop_ok (script : string) (ms : list re_match) :
  forall (i : nat) (tabs : dict),
    tabs_ok tabs -> tabs_ok (parse_tabs_loop script i ms tabs).
Proof.
  induction ms as [|m ms IH]; intros i tabs Hok; simpl; [exact Hok|].
  apply IH. apply dict_set_ok; [apply strip_stripped | exact Hok].
Qed.

Lemma parse_script_tabs_ok (script : string) :
  tabs_ok (parse_script_tabs script).
Proof.
  unfold parse_script_tabs.
  destruct (finditer script) as [|m0 ms].
  - split; [constructor; [intros [] | constructor]|].
    constructor; [apply strip_stripped | constructor].
  - apply parse_tabs_loop_ok.
    destruct (is_empty _).
    + split; constructor.
    + apply dict_set_ok; [apply strip_stripped | split; constructor].
Qed.

(** Only the key [Main] is written to the file of stem [Main]. *)
Lemma sanitize_Main (k : string) : sanitize k = "Main" -> k = "Main".
Proof.
  assert (Hc : forall c d : ascii,
             (if is_unsafe c then "_"%char else c) = d ->
             d <> "_"%char -> c = d).
  { intros c d H Hd. destruct (is_unsafe c); [|exact H].
    now contradiction Hd. }
  destruct k as [|c1 [|c2 [|c3 [|c4 [|c5 k]]]]]; simpl; intros H;
    try discriminate H.
  injection H as H1 H2 H3 H4.
  apply Hc in H1, H2, H3, H4; try discriminate. now subst.
Qed.

Lemma save_tabs_loop_other (k : string) (tabs : dict) :
  (forall kv, In kv tabs -> sanitize (fst kv) <> k) ->
  forall (dir : gmap string string) (created : list string),
    fst (save_tabs_loop tabs dir created) !! k = dir !! k.
Proof.
  induction tabs as [|[k1 c1] tabs IH]; intros Hne dir created;
    cbn [save_tabs_loop]; [reflexivity|].
  destruct (open_for_writing _); [|reflexivity].
  rewrite IH by (intros kv Hkv; apply Hne; now right).
  apply lookup_insert_ne. apply (Hne (k1, c1)). now left.
Qed.

Lemma open_for_writing_Main :
  open_for_writing (sanitize "Main" +:+ ".qvs") = Ok tt.
Proof. reflexivity. Qed.

(** The tab [Main], written first, is in the file of stem [Main] with its
    content normalised, whatever becomes of the tabs after it. *)
Lemma save_tabs_loop_Main (c : string) (tabs : dict) :
  List.NoDup (map fst (("Main", c) :: tabs)) ->
  forall (dir : gmap string string) (created : list string),
    fst (save_tabs_loop (("Main", c) :: tabs) dir created) !! "Main"
    = Some (normalize_eol c).
Proof.
  intros Hnd dir created. inversion Hnd as [|? ? Hnotin Hnd']; subst.
  cbn [save_tabs_loop]. rewrite open_for_writing_Main.
  rewrite save_tabs_loop_other; [apply lookup_insert_eq|].
  intros [k v] Hkv Hs. simpl in Hs. apply sanitize_Main in Hs. subst k.
  apply Hnotin. now apply (in_map fst _ _ Hkv).
Qed.

Lemma parse_tabs_loop_head (script c : string) (ms : list re_match) :
  forall (i : nat) (tabs : dict),
    exists tabs' : dict,
      parse_tabs_loop script i ms (("Main", c) :: tabs)
      = ("Main", c) :: tabs'.
Proof.
  induction ms as [|m ms IH]; intros i tabs; cbn [parse_tabs_loop];
    [now exists tabs|].
  cbn [dict_set].
  destruct (String.eqb_spec (str_of_nat i +:+ "___" +:+ m_group1 m) "Main")
    as [H|_]; [|apply IH].
  exfalso. exact (lacks_separator_Main _ _ (eq_sym H)).
Qed.

Lemma parse_tabs_loop_no_Main (script : string) (ms : list re_match) :
  forall (i : nat) (tabs : dict),
    ~ In "Main" (map fst tabs) ->
    ~ In "Main" (map fst (parse_tabs_loop script i ms tabs)).
Proof.
  induction ms as [|m ms IH]; intros i tabs Hno; cbn [parse_tabs_loop];
    [exact Hno|].
  apply IH. rewrite dict_set_keys. intros [H|H]; [|now apply Hno].
  exact (lacks_separator_Main _ _ H).
Qed.

(** The tab [Main] of a split is its first tab. *)
Lemma parse_script_tabs_Main_first (app_script c : string) :
  In ("Main", c) (parse_script_tabs app_script) ->
  exists tabs : dict, parse_script_tabs app_script = ("Main", c) :: tabs.
Proof.
  intros Hin.
  destruct (parse_script_tabs_ok app_script) as [Hnd _].
  assert (Hhead : exists (c0 : string) (tabs : dict),
             parse_script_tabs app_script = ("Main", c0) :: tabs).
  { unfold parse_script_tabs in *.
    destruct (finditer app_script) as [|m0 ms]; [eauto|].
    destruct (is_empty (strip (slice 0 (m_start m0) app_script))).
    - exfalso. apply (parse_tabs_loop_no_Main app_script (m0 :: ms) 0 []);
        [intros []|].
      now apply (in_map fst _ _ Hin).
    - cbn [dict_set].
      destruct (parse_tabs_loop_head app_script
                  (strip (slice 0 (m_start m0) app_script)) (m0 :: ms) 0 [])
        as [tabs Htabs].
      eauto. }
  destruct Hhead as (c0 & tabs & Heq). rewrite Heq in Hin, Hnd.
  exists tabs. destruct Hin as [Hc|Hin]; [now rewrite Heq, Hc|].
  exfalso. inversion Hnd as [|? ? Hnotin _]; subst.
  apply Hnotin. now apply (in_map fst _ _ Hin).
Qed.

Lemma get_writes_Main (app_script c : string) :
  In ("Main", c) (parse_script_tabs app_script) ->
  get app_script !! "Main" = Some (normalize_eol c).
Proof.
  intros Hin. unfold get, save_tabs_as_qvs_files.
  destruct (parse_script_tabs_Main_first _ _ Hin) as [tabs Heq].
  rewrite Heq. apply save_tabs_loop_Main.
  rewrite <- Heq. apply parse_script_tabs_ok.
Qed.

Lemma parse_script_tabs_stripped (app_script k c : string) :
  In (k, c) (parse_script_tabs app_script) -> stripped c.
Proof.
  intros Hin. destruct (parse_script_tabs_ok app_script) as [_ Hall].
  rewrite List.Forall_forall in Hall. exact (Hall _ Hin).
Qed.

Lemma dict_set_keeps_entry (k v k0 v0 : string) (d : dict) :
  k <> k0 -> In (k0, v0) d -> In (k0, v0) (dict_set k v d).
Proof.
  intros Hne. induction d as [|[k1 v1] d IH]; intros Hin; [contradiction Hin|].
  simpl. destruct (String.eqb_spec k k1) as [->|Hk].
  - destruct Hin as [Heq|Hin]; [|now right].
    injection Heq as -> _. now contradiction Hne.
  - destruct Hin as [Heq|Hin]; [now left | right; now apply IH].
Qed.

Lemma parse_tabs_loop_keeps_Main (script c : string) (ms : list re_match) :
  forall (i : nat) (tabs : dict),
    In ("Main", c) tabs -> In ("Main", c) (parse_tabs_loop script i ms tabs).
Proof.
  induction ms as [|m ms IH]; intros i tabs Hin; simpl; [exact Hin|].
  apply IH. apply dict_set_keeps_entry; [|exact Hin].
  intros H. exact (lacks_separator_Main _ _ (eq_sym H)).
Qed.

(** The text before the first marker is the tab [Main] of the split. *)
Lemma parse_script_tabs_leading_text (script : string) (m0 : re_match)
    (ms : list re_match) :
  finditer script = m0 :: ms ->
  strip (slice 0 (m_start m0) script) <> EmptyString ->
  In ("Main", strip (slice 0 (m_start m0) script)) (parse_script_tabs script).
Proof.
  intros Hfind Htext. unfold parse_script_tabs. rewrite Hfind.
  apply parse_tabs_loop_keeps_Main.
  rewrite (is_empty_false _ Htext). now left.
Qed.

(** C10.  [get_app_script_tabbed] raises [IndexError] on every directory that
    holds a file with text whose stem has no separator of three underscores,
    whatever the other files and the order of the listing.  The directory
    that [get] writes is such a directory whenever the split of the script
    has a tab [Main] with text (the text before the first marker, or the
    text of a script without marker): its file [Main.qvs] holds that text,
    and [set] fails on it with [IndexError]. *)
Theorem get_app_script_tabbed_not_total (script_dir : string) :
  (forall (qvs_files : list qvs_file) (f : qvs_file),
      In f qvs_files ->
      lacks_separator (stem f) ->
      rstrip (text f) <> EmptyString ->
      get_app_script_tabbed script_dir (Some qvs_files) = Raise IndexError)
  /\ (forall (app_script c : string) (g : list qvs_file),
         In ("Main", c) (parse_script_tabs app_script) ->
         c <> EmptyString ->
         listing (get app_script) g ->
         get app_script !! "Main" = Some (normalize_eol c)
         /\ set script_dir (Some g) = Raise IndexError).
Proof.
  split.
  - intros qvs_files f. apply get_app_script_tabbed_raises.
  - intros app_script c g Hin Hc Hg.
    pose proof (get_writes_Main _ _ Hin) as Hmain.
    split; [exact Hmain|].
    unfold set.
    rewrite (get_app_script_tabbed_raises script_dir ("Main", normalize_eol c));
      [reflexivity | | apply lacks_separator_Main |].
    + apply list_elem_of_In. rewrite Hg. now apply elem_of_map_to_list.
    + apply rstrip_normalize_eol_nonempty; [|exact Hc].
      exact (parse_script_tabs_stripped _ _ _ Hin).
Qed.

Lemma get_app_script_tabbed_not_total_witness :
  get_app_script_tabbed "scripts/App/id" (Some [("0___X", "B"); ("Main", "A")])
  = Raise IndexError
  /\ set "scripts/App/id" (Some (map_to_list (get script_with_leading_text)))
     = Raise IndexError.
Proof.
  destruct (get_app_script_tabbed_not_total "scripts/App/id") as [Hdir Hget].
  split.
  - apply (Hdir [("0___X", "B"); ("Main", "A")] ("Main", "A")).
    + right. left. reflexivity.
    + apply lacks_separator_Main.
    + discriminate.
  - apply (Hget script_with_leading_text "A"
             (map_to_list (get script_with_leading_text))).
    + left. reflexivity.
    + discriminate.
    + apply Permutation_refl.
Defined.

(** ** Where a tab starts *)

(** C4 as stated fails on a script whose first line carries a statement
    followed by the marker text: the marker found starts at position 8,
    after a space, and it opens the tab [X]. *)
Lemma marker_mid_line_counterexample :
  finditer script_marker_mid_line = [MkMatch 8 17 "X"]
  /\ ~ at_line_start script_marker_mid_line 8
  /\ parse_script_tabs script_marker_mid_line
     = [("Main", "LOAD 1;"); ("0___X", "B")].
Proof.
  split; [reflexivity|]. split; [|reflexivity].
  intros [H0 | (c & Hget & Heol)]; [discriminate H0|].
  vm_compute in Hget. injection Hget as <-. discriminate Heol.
Qed.

Lemma span_name_app (name rest : string) :
  one_line name -> line_end rest -> span_name (name +:+ rest) = name.
Proof.
  unfold one_line. induction name as [|c name IH]; simpl; intros Hn Hr.
  - destruct rest as [|d rest]; [reflexivity|]. simpl. now rewrite Hr.
  - destruct (is_eol c); [discriminate Hn|].
    injection Hn as Hn. now rewrite IH.
Qed.

(** ** Splitting, saving and combining *)

Lemma get_script_two_tabs :
  parse_script_tabs script_two_tabs = [("0___A", "x"); ("1___B", "y")]
  /\ get script_two_tabs !! "0___A" = Some "x"
  /\ get script_two_tabs !! "1___B" = Some "y"
  /\ size (get script_two_tabs) = 2.
Proof. repeat split; reflexivity. Qed.

(** C1, at the script of the two tabs [A] and [B] with the contents [x] and
    [y]: after the split and the writing of the files by [get],
    [combine_tabs_from_files] without order list returns, for every listing
    of the directory, the tab [B] before the tab [A], each under its key
    with the index. *)
Theorem combine_after_get_two_tabs (scripts_path : string) (g : list qvs_file) :
  listing (get script_two_tabs) g ->
  combine_tabs_from_files scripts_path (Some g) None
  = Ok ("///$tab 1___B" +:+ String CR ("y" +:+ String CR (String CR
         ("///$tab 0___A" +:+ String CR "x")))).
Proof.
  unfold listing. intros Hg.
  assert (Hl : exists a b : qvs_file,
             map_to_list (get script_two_tabs) = [a; b]
             /\ ((a = ("0___A", "x") /\ b = ("1___B", "y"))
                 \/ (a = ("1___B", "y") /\ b = ("0___A", "x")))).
  { vm_compute. eexists _, _. split; [reflexivity|].
    first [left; split; reflexivity | right; split; reflexivity]. }
  destruct Hl as (a & b & Hl & Hab). rewrite Hl in Hg.
  apply Permutation_sym, Permutation_length_2_inv in Hg.
  destruct Hab as [[-> ->] | [-> ->]]; destruct Hg as [-> | ->]; reflexivity.
Qed.

Lemma combine_after_get_two_tabs_witness :
  combine_tabs_from_files "scripts/App/id"
    (Some (map_to_list (get script_two_tabs))) None
  = Ok ("///$tab 1___B" +:+ String CR ("y" +:+ String CR (String CR
         ("///$tab 0___A" +:+ String CR "x")))).
Proof.
  apply (combine_after_get_two_tabs "scripts/App/id"
           (map_to_list (get script_two_tabs))).
  apply Permutation_refl.
Defined.

(** C3, at directories with numbered stems.  [combine_tabs_from_files] writes
    the whole stem in the marker: for a directory of one file with text
    whose stem is not [Main], and for the directory of the files [Main.qvs]
    and [0___X.qvs], where [Main] comes first without marker and the other
    tab under [0___X].  [get_app_script_tabbed] raises on that directory,
    and writes the name [a] for the stem [0___a___b]. *)
Theorem marker_names_at_numbered_stems (path : string) :
  (forall tab_name content : string,
      tab_name <> "Main" ->
      strip content <> EmptyString ->
      combine_tabs_from_files path (Some [(tab_name, content)]) None
      = Ok ("///$tab " +:+ tab_name
            +:+ String CR (normalize_eol (strip content))))
  /\ combine_tabs_from_files path (Some [("Main", "a"); ("0___X", "b")]) None
     = Ok ("a" +:+ String CR (String CR ("///$tab 0___X" +:+ String CR "b")))
  /\ combine_tabs_from_files path (Some [("0___X", "b"); ("Main", "a")]) None
     = Ok ("a" +:+ String CR (String CR ("///$tab 0___X" +:+ String CR "b")))
  /\ get_app_script_tabbed path (Some [("Main", "a"); ("0___X", "b")])
     = Raise IndexError
  /\ get_app_script_tabbed path (Some [("0___X", "b"); ("Main", "a")])
     = Raise IndexError
  /\ get_app_script_tabbed path (Some [("0___a___b", "x")])
     = Ok ("///$tab a" +:+ String CR "x").
Proof.
  split; [|repeat split; reflexivity].
  intros tab_name content Hname Htext.
  unfold combine_tabs_from_files, combine_order.
  cbn [sorted insert_sorted combine_loop stem text fst snd].
  rewrite (is_empty_false _ Htext).
  rewrite (proj2 (String.eqb_neq tab_name "Main") Hname).
  reflexivity.
Qed.

Lemma marker_names_at_numbered_stems_witness :
  combine_tabs_from_files "scripts/App/id" (Some [("0___X", "b")]) None
  = Ok ("///$tab " +:+ "0___X" +:+ String CR (normalize_eol (strip "b"))).
Proof.
  apply (proj1 (marker_names_at_numbered_stems "scripts/App/id") "0___X" "b");
    discriminate.
Defined.

(** ** A script without marker *)

Lemma parse_script_tabs_no_marker (script : string) :
  finditer script = [] -> parse_script_tabs script = [("Main", strip script)].
Proof. intros H. unfold parse_script_tabs. now rewrite H. Qed.

Lemma parse_script_tabs_three_tabs :
  parse_script_tabs
    ("A" +:+ String CR ("///$tab X" +:+ String CR ("B" +:+ String CR
       ("///$tab Y" +:+ String CR "C"))))
  = [("Main", "A"); ("0___X", "B"); ("1___Y", "C")].
Proof. reflexivity. Qed.

Lemma replace_lf_no_lf (s : string) : contains_char LF (replace_lf s) = false.
Proof.
  induction s as [|c s IH]; [reflexivity|].
  cbn [replace_lf contains_char]. rewrite IH, orb_false_r.
  destruct (Ascii.eqb_spec c LF) as [->|Hne]; [reflexivity|].
  apply Ascii.eqb_neq. congruence.
Qed.

Lemma replace_lf_id (s : string) :
  contains_char LF s = false -> replace_lf s = s.
Proof.
  induction s as [|c s IH]; [reflexivity|].
  cbn [replace_lf contains_char].
  intros [Hc Hs]%orb_false_iff. rewrite Ascii.eqb_sym in Hc.
  now rewrite Hc, IH.
Qed.

Lemma replace_crlf_id (s : string) :
  contains_char LF s = false -> replace_crlf s = s.
Proof.
  induction s as [|c s IH]; [reflexivity|].
  intros H. cbn [contains_char] in H. apply orb_false_iff in H as [_ Hs].
  cbn [replace_crlf]. destruct s as [|d s]; [reflexivity|].
  rewrite (IH Hs).
  cbn [contains_char] in Hs. apply orb_false_iff in Hs as [Hd _].
  rewrite Ascii.eqb_sym in Hd. rewrite Hd. now rewrite andb_false_r.
Qed.

Lemma normalize_eol_idem (s : string) :
  normalize_eol (normalize_eol s) = normalize_eol s.
Proof.
  unfold normalize_eol.
  rewrite (replace_crlf_id _ (replace_lf_no_lf _)).
  apply replace_lf_id, replace_lf_no_lf.
Qed.

Lemma lstrip_id (s : string) : stripped s -> lstrip s = s.
Proof. destruct s as [|c s]; simpl; [trivial | now intros ->]. Qed.

Lemma rstrip_idem (s : string) : rstrip (rstrip s) = rstrip s.
Proof.
  induction s as [|c s IH]; [reflexivity|]. cbn [rstrip].
  destruct (rstrip s) as [|d r] eqn:Hr.
  - destruct (py_isspace c) eqn:Hc; [reflexivity|].
    cbn [rstrip]. now rewrite Hc.
  - cbn [rstrip]. cbn [rstrip] in IH. now rewrite IH.
Qed.

Lemma rstrip_keeps_head (s : string) (e : ascii) (r : string) :
  rstrip s = String e r -> exists s' : string, s = String e s'.
Proof.
  destruct s as [|c s]; [discriminate|]. cbn [rstrip].
  destruct (rstrip s); [destruct (py_isspace c)|]; intros H;
    try discriminate H; injection H as -> _; eauto.
Qed.

Lemma replace_crlf_nonempty (c : ascii) (s : string) :
  exists (d : ascii) (r : string), replace_crlf (String c s) = String d r.
Proof.
  cbn [replace_crlf]. destruct s as [|d s]; [eauto|].
  destruct (Ascii.eqb c CR && Ascii.eqb d LF); eauto.
Qed.

Lemma rstrip_cons (c : ascii) (s : string) :
  rstrip (String c s)
  = match rstrip s with
    | EmptyString => if py_isspace c then EmptyString else String c EmptyString
    | r => String c r
    end.
Proof. reflexivity. Qed.

(** Trailing white space may be removed before or after the pairs of
    carriage return and line feed are replaced. *)
Lemma rstrip_replace_crlf (n : nat) :
  forall s : string,
    String.length s <= n -> rstrip (replace_crlf s) = replace_crlf (rstrip s).
Proof.
  induction n as [|n IH]; intros [|c s] Hlen; try reflexivity;
    [simpl in Hlen; lia|].
  simpl in Hlen.
  destruct s as [|d s].
  - cbn [replace_crlf rstrip]. now destruct (py_isspace c).
  - simpl in Hlen.
    change (replace_crlf (String c (String d s)))
      with (if Ascii.eqb c CR && Ascii.eqb d LF
            then String CR (replace_crlf s)
            else String c (replace_crlf (String d s))).
    destruct (Ascii.eqb c CR && Ascii.eqb d LF) eqn:Hcd.
    + apply andb_true_iff in Hcd as [Hc Hd].
      apply Ascii.eqb_eq in Hc, Hd. subst c d.
      rewrite rstrip_cons, (IH s) by lia.
      rewrite (rstrip_cons CR), (rstrip_cons LF).
      destruct (rstrip s) as [|e r]; [reflexivity|].
      change (replace_crlf (String CR (String LF (String e r))))
        with (String CR (replace_crlf (String e r))).
      destruct (replace_crlf_nonempty e r) as (e' & r' & Hr). now rewrite Hr.
    + rewrite rstrip_cons, (IH (String d s)) by (simpl; lia).
      rewrite (rstrip_cons c).
      destruct (rstrip (String d s)) as [|e r] eqn:Hr.
      * cbn [replace_crlf]. now destruct (py_isspace c).
      * destruct (rstrip_keeps_head _ _ _ Hr) as [s' Hs'].
        injection Hs' as <- _.
        destruct (replace_crlf_nonempty d r) as (e' & r' & Hr'). rewrite Hr'.
        rewrite <- Hr'. cbn [replace_crlf]. now rewrite Hcd.
Qed.

Lemma rstrip_replace_lf (s : string) :
  rstrip (replace_lf s) = replace_lf (rstrip s).
Proof.
  induction s as [|c s IH]; [reflexivity|].
  cbn [replace_lf]. rewrite !rstrip_cons, IH.
  assert (Hsp : py_isspace (if Ascii.eqb c LF then CR else c) = py_isspace c).
  { destruct (Ascii.eqb_spec c LF) as [->|]; reflexivity. }
  rewrite Hsp.
  destruct (rstrip s) as [|e r]; [now destruct (py_isspace c) | reflexivity].
Qed.

Lemma rstrip_normalize_eol (s : string) :
  rstrip (normalize_eol s) = normalize_eol (rstrip s).
Proof.
  unfold normalize_eol. rewrite rstrip_replace_lf.
  now rewrite (rstrip_replace_crlf (String.length s)).
Qed.

Lemma normalize_eol_stripped (s : string) :
  stripped s -> stripped (normalize_eol s).
Proof.
  destruct s as [|c s]; [trivial|]. intros Hc.
  destruct (normalize_eol_head c s Hc) as [r ->]. exact Hc.
Qed.

(** The text written for a tab is read back unchanged by
    [combine_tabs_from_files]. *)
Lemma strip_normalize_eol_strip (s : string) :
  strip (normalize_eol (strip s)) = normalize_eol (strip s).
Proof.
  unfold strip at 1.
  rewrite lstrip_id by apply normalize_eol_stripped, strip_stripped.
  rewrite rstrip_normalize_eol. unfold strip. now rewrite rstrip_idem.
Qed.

(** A script without marker comes back from the split, the writing of the
    file and [combine_tabs_from_files] as its stripped text with carriage
    returns for line ends. *)
Lemma combine_after_get_no_marker (scripts_path script : string)
    (g : list qvs_file) :
  finditer script = [] ->
  listing (get script) g ->
  combine_tabs_from_files scripts_path (Some g) None
  = Ok (normalize_eol (strip script)).
Proof.
  intros Hno Hg. unfold listing, get in Hg.
  rewrite (parse_script_tabs_no_marker _ Hno) in Hg.
  cbn [save_tabs_as_qvs_files save_tabs_loop] in Hg.
  rewrite open_for_writing_Main in Hg. cbn [save_tabs_loop fst] in Hg.
  change (sanitize "Main") with "Main" in Hg.
  rewrite insert_empty, map_to_list_singleton in Hg.
  apply Permutation_singleton_r in Hg. subst g.
  unfold combine_tabs_from_files, combine_order.
  cbn [sorted insert_sorted combine_loop stem text fst snd].
  rewrite strip_normalize_eol_strip.
  destruct (normalize_eol (strip script)) as [|c r] eqn:Ht; [reflexivity|].
  cbn [is_empty]. rewrite <- Ht, normalize_eol_idem.
  reflexivity.
Qed.

(** * Further properties *)

(** ** The scan for markers *)

Lemma span_name_split (s : string) :
  exists rest : string, s = span_name s +:+ rest /\ line_end rest.
Proof.
  induction s as [|c s (rest & Hs & Hr)]; [now exists EmptyString|].
  cbn [span_name]. destruct (is_eol c) eqn:Hc.
  - exists (String c s). split; [reflexivity | exact Hc].
  - exists rest. split; [|exact Hr]. simpl. now rewrite <- Hs.
Qed.

Lemma span_name_one_line (s : string) : one_line (span_name s).
Proof.
  unfold one_line. induction s as [|c s IH]; [reflexivity|].
  cbn [span_name]. destruct (is_eol c) eqn:Hc; [reflexivity|].
  cbn [span_name]. now rewrite Hc, IH.
Qed.

Lemma match_name_sound (s n : string) :
  match_name s = Some n ->
  n <> EmptyString /\ one_line n
  /\ exists rest : string, s = n +:+ rest /\ line_end rest.
Proof.
  unfold match_name. intros H.
  assert (Hn : n = span_name s) by (destruct (span_name s); now inversion H).
  subst n. split; [|split].
  - intros He. rewrite He in H. discriminate H.
  - apply span_name_one_line.
  - apply span_name_split.
Qed.

Lemma match_spaces_name_sound (s : string) :
  forall (k : nat) (n : string),
    match_spaces_name s = Some (k, n) ->
    exists ws rest : string,
      s = ws +:+ n +:+ rest /\ String.length ws = k /\ all_space ws = true
      /\ n <> EmptyString /\ one_line n /\ line_end rest.
Proof.
  assert (Hbase : forall (t n : string) (k : nat),
             option_map (pair 0) (match_name t) = Some (k, n) ->
             exists ws rest : string,
               t = ws +:+ n +:+ rest /\ String.length ws = k
               /\ all_space ws = true
               /\ n <> EmptyString /\ one_line n /\ line_end rest).
  { intros t n k H. destruct (match_name t) as [n'|] eqn:Hm; [|discriminate H].
    injection H as <- <-.
    destruct (match_name_sound _ _ Hm) as (Hne & Hone & rest & Ht & Hr).
    exists EmptyString, rest. repeat split; trivial. }
  induction s as [|c s IH]; intros k n H; [discriminate H|].
  cbn [match_spaces_name] in H.
  destruct (py_isspace c) eqn:Hc; [|now apply Hbase].
  destruct (match_spaces_name s) as [[k' n']|] eqn:Hs; [|now apply Hbase].
  injection H as <- <-.
  destruct (IH _ _ eq_refl) as (ws & rest & Ht & Hlen & Hws & Hrest).
  exists (String c ws), rest. split; [simpl; now rewrite <- Ht|].
  split; [simpl; now rewrite Hlen|].
  split; [cbn [all_space]; now rewrite Hc, Hws | exact Hrest].
Qed.

Lemma match_marker_sound (s : string) (len : nat) (n : string) :
  match_marker s = Some (len, n) ->
  exists ws rest : string,
    s = "///$tab" +:+ ws +:+ n +:+ rest
    /\ len = 7 + String.length ws + String.length n
    /\ ws <> EmptyString /\ all_space ws = true
    /\ n <> EmptyString /\ one_line n /\ line_end rest.
Proof.
  unfold match_marker. intros H.
  destruct (strip_prefix "///$tab" s) as [[|c r]|] eqn:Hp; try discriminate H.
  destruct (py_isspace c) eqn:Hc; [|discriminate H].
  destruct (match_spaces_name r) as [[k n']|] eqn:Hm; [|discriminate H].
  injection H as <- <-.
  destruct (match_spaces_name_sound _ _ _ Hm)
    as (ws & rest & Hr & Hlen & Hws & Hne & Hone & Hrest).
  apply strip_prefix_Some in Hp.
  exists (String c ws), rest. split; [rewrite Hp, Hr; reflexivity|].
  split; [simpl; lia|].
  split; [discriminate|].
  split; [cbn [all_space]; now rewrite Hc, Hws|]. auto.
Qed.

Lemma drop_str_app (before s : string) :
  drop_str (String.length before) (before +:+ s) = s.
Proof. induction before as [|c before IH]; [reflexivity | exact IH]. Qed.

Lemma drop_str_split (n : nat) (s : string) :
  n <= String.length s ->
  exists before : string,
    s = before +:+ drop_str n s /\ String.length before = n.
Proof.
  revert s. induction n as [|n IH]; intros s Hn.
  - now exists EmptyString.
  - destruct s as [|c s]; [simpl in Hn; lia|].
    destruct (IH s) as (before & Hs & Hlen); [simpl in Hn; lia|].
    exists (String c before). split; [simpl; now rewrite <- Hs|].
    simpl. now rewrite Hlen.
Qed.

(** What the scan reports from the position [pos], where [s] is the rest of
    the script and [skip] characters of it belong to the match before. *)
Lemma finditer_from_sound (s : string) :
  forall (skip pos : nat) (m : re_match),
    In m (finditer_from skip pos s) ->
    pos + skip <= m_start m
    /\ m_end m <= pos + String.length s
    /\ match_marker (drop_str (m_start m - pos) s)
       = Some (m_end m - m_start m, m_group1 m).
Proof.
  induction s as [|c s IH]; intros skip pos m Hin; [contradiction Hin|].
  cbn [finditer_from] in Hin.
  destruct skip as [|skip].
  - destruct (match_marker (String c s)) as [[len n]|] eqn:Hm.
    + destruct Hin as [<-|Hin].
      * cbn [m_start m_end m_group1].
        destruct (match_marker_sound _ _ _ Hm) as (ws & rest & Hs & Hlen & _).
        assert (Hl : len <= String.length (String c s)).
        { rewrite Hs, Hlen. rewrite !length_append. simpl. lia. }
        split; [lia|]. split; [lia|].
        replace (pos - pos) with 0 by lia.
        replace (pos + len - pos) with len by lia. exact Hm.
      * destruct (IH _ _ _ Hin) as (H1 & H2 & H3).
        split; [lia|]. split; [simpl; lia|].
        replace (m_start m - pos) with (S (m_start m - S pos)) by lia.
        exact H3.
    + destruct (IH _ _ _ Hin) as (H1 & H2 & H3).
      split; [lia|]. split; [simpl; lia|].
      replace (m_start m - pos) with (S (m_start m - S pos)) by lia.
      exact H3.
  - destruct (IH _ _ _ Hin) as (H1 & H2 & H3).
    split; [lia|]. split; [simpl; lia|].
    replace (m_start m - pos) with (S (m_start m - S pos)) by lia.
    exact H3.
Qed.

(** Every match that [re.finditer] reports is an occurrence of the pattern at
    the reported place: the script reads, from [m.start()], the marker word,
    at least one white-space character and the captured name; the name is
    not empty, has no line terminator and runs to the end of its line, and
    [m.end()] is the end of the name. *)
Theorem finditer_sound (script : string) (m : re_match) :
  In m (finditer script) -> occurrence script m.
Proof.
  intros Hin. apply finditer_from_sound in Hin as (H1 & H2 & H3).
  rewrite Nat.sub_0_r in H3. simpl in H2.
  destruct (match_marker_sound _ _ _ H3)
    as (ws & rest & Hs & Hlen & Hws & Hsp & Hne & Hone & Hrest).
  assert (Hle : m_start m <= String.length script).
  { assert (m_start m < m_end m); [|lia].
    assert (0 < m_end m - m_start m); [|lia].
    rewrite Hlen. lia. }
  destruct (drop_str_split _ _ Hle) as (before & Hb & Hbl).
  exists before, ws, rest. rewrite Hs in Hb.
  repeat split; trivial. lia.
Qed.

Lemma finditer_sound_witness :
  occurrence script_marker_mid_line (MkMatch 8 17 "X").
Proof.
  apply (finditer_sound script_marker_mid_line (MkMatch 8 17 "X")).
  left. reflexivity.
Defined.

Lemma matches_chain_le (ms : list re_match) (a b : nat) :
  b <= a -> matches_chain a ms -> matches_chain b ms.
Proof.
  destruct ms as [|m ms]; [trivial|]. simpl. intros Hab (H1 & H2 & H3).
  repeat split; trivial. lia.
Qed.

Lemma finditer_from_chain (s : string) :
  forall skip pos : nat, matches_chain (pos + skip) (finditer_from skip pos s).
Proof.
  induction s as [|c s IH]; intros skip pos; [exact I|].
  cbn [finditer_from]. destruct skip as [|skip].
  - destruct (match_marker (String c s)) as [[len n]|] eqn:Hm.
    + destruct (match_marker_sound _ _ _ Hm) as (ws & rest & _ & Hlen & _).
      cbn [matches_chain m_start m_end]. split; [lia|]. split; [lia|].
      replace (pos + len) with (S pos + (len - 1)) by lia. apply IH.
    + apply (matches_chain_le _ (S pos + 0)); [lia | apply IH].
  - replace (pos + S skip) with (S pos + skip) by lia. apply IH.
Qed.

(** The matches are reported from left to right and do not overlap: each one
    is not empty, starts at or after the end of the one before, and ends
    inside the script. *)
Theorem finditer_ordered (script : string) :
  matches_chain 0 (finditer script)
  /\ Forall (fun m => m_end m <= String.length script) (finditer script).
Proof.
  split; [apply (finditer_from_chain script 0 0)|].
  apply List.Forall_forall. intros m Hin.
  now apply finditer_from_sound in Hin as (_ & H & _).
Qed.

(** *** The scan misses no match *)

Lemma match_name_head (c : ascii) (rest : string) :
  is_eol c = false ->
  match_name (String c rest) = Some (String c (span_name rest)).
Proof. intros Hc. unfold match_name. cbn [span_name]. now rewrite Hc. Qed.

Lemma match_spaces_name_complete (ws : string) (c : ascii) (rest : string) :
  all_space ws = true -> is_eol c = false ->
  exists (k : nat) (n : string),
    match_spaces_name (ws +:+ String c rest) = Some (k, n).
Proof.
  intros Hws Hc. induction ws as [|w ws IH].
  - change (EmptyString +:+ String c rest) with (String c rest).
    cbn [match_spaces_name]. rewrite (match_name_head _ _ Hc).
    destruct (py_isspace c); [|cbn; eauto].
    destruct (match_spaces_name rest) as [[k n]|]; cbn; eauto.
  - cbn [all_space] in Hws. apply andb_true_iff in Hws as [Hw Hws].
    change (String w ws +:+ String c rest)
      with (String w (ws +:+ String c rest)).
    cbn [match_spaces_name]. rewrite Hw.
    destruct (IH Hws) as (k & n & ->). eauto.
Qed.

(** The pattern matches wherever the marker word is followed by white space
    and by a character that can start a name. *)
Lemma match_marker_complete (ws : string) (c : ascii) (rest : string) :
  ws <> EmptyString -> all_space ws = true -> is_eol c = false ->
  exists (len : nat) (n : string),
    match_marker ("///$tab" +:+ ws +:+ String c rest) = Some (len, n).
Proof.
  intros Hne Hws Hc. unfold match_marker. rewrite strip_prefix_app.
  destruct ws as [|w ws]; [now contradiction Hne|].
  cbn [all_space] in Hws. apply andb_true_iff in Hws as [Hw Hws].
  change (String w ws +:+ String c rest)
    with (String w (ws +:+ String c rest)).
  cbv beta iota. rewrite Hw.
  destruct (match_spaces_name_complete ws c rest Hws Hc) as (k & n & ->).
  eauto.
Qed.

(** The star gives back no more white space than it must. *)
Lemma match_spaces_name_longest (s : string) :
  forall (k : nat) (n : string),
    match_spaces_name s = Some (k, n) ->
    forall (ws' : string) (c' : ascii) (rest' : string),
      s = ws' +:+ String c' rest' ->
      all_space ws' = true -> is_eol c' = false ->
      String.length ws' <= k.
Proof.
  induction s as [|c s IH]; intros k n H ws' c' rest' Hs Hws Hc;
    [discriminate H|].
  destruct ws' as [|w ws']; [simpl; lia|].
  injection Hs as <- Hs.
  cbn [all_space] in Hws. apply andb_true_iff in Hws as [Hw Hws].
  cbn [match_spaces_name] in H. rewrite Hw in H.
  destruct (match_spaces_name s) as [[k' n']|] eqn:Hm.
  - injection H as <- <-. simpl.
    pose proof (IH _ _ eq_refl _ _ _ Hs Hws Hc). lia.
  - exfalso. rewrite Hs in Hm.
    destruct (match_spaces_name_complete ws' c' rest' Hws Hc)
      as (k' & n' & Hm').
    rewrite Hm' in Hm. discriminate Hm.
Qed.

Lemma match_marker_greedy (s : string) (len : nat) (n : string) :
  match_marker s = Some (len, n) ->
  exists ws rest : string,
    s = "///$tab" +:+ ws +:+ n +:+ rest
    /\ len = 7 + String.length ws + String.length n
    /\ ws <> EmptyString /\ all_space ws = true
    /\ n <> EmptyString /\ one_line n /\ line_end rest
    /\ forall (ws' : string) (c' : ascii) (rest' : string),
         ws +:+ n +:+ rest = ws' +:+ String c' rest' ->
         all_space ws' = true -> is_eol c' = false ->
         String.length ws' <= String.length ws.
Proof.
  unfold match_marker. intros H.
  destruct (strip_prefix "///$tab" s) as [[|c r]|] eqn:Hp; try discriminate H.
  destruct (py_isspace c) eqn:Hc; [|discriminate H].
  destruct (match_spaces_name r) as [[k n']|] eqn:Hm; [|discriminate H].
  injection H as <- <-.
  destruct (match_spaces_name_sound _ _ _ Hm)
    as (ws & rest & Hr & Hlen & Hws & Hne & Hone & Hrest).
  apply strip_prefix_Some in Hp.
  exists (String c ws), rest. split; [rewrite Hp, Hr; reflexivity|].
  split; [simpl; lia|].
  split; [discriminate|].
  split; [cbn [all_space]; now rewrite Hc, Hws|].
  repeat split; trivial.
  intros ws' c' rest' Heq Hws' Hc'.
  destruct ws' as [|w ws']; [simpl; lia|].
  change (String c ws +:+ n' +:+ rest) with (String c (ws +:+ n' +:+ rest))
    in Heq.
  injection Heq as <- Heq.
  cbn [all_space] in Hws'. apply andb_true_iff in Hws' as [_ Hws'].
  rewrite <- Hr in Heq.
  pose proof (match_spaces_name_longest _ _ _ Hm _ _ _ Heq Hws' Hc').
  simpl. lia.
Qed.

Lemma one_line_head (c : ascii) (n : string) :
  one_line (String c n) -> is_eol c = false.
Proof.
  unfold one_line. cbn [span_name].
  destruct (is_eol c); [discriminate | reflexivity].
Qed.

Lemma drop_str_length (p : nat) (s : string) :
  drop_str p s <> EmptyString -> p <= String.length s.
Proof.
  revert s. induction p as [|p IH]; intros s H; [lia|].
  destruct s as [|c s]; [now contradiction H|].
  simpl. apply IH in H. lia.
Qed.

(** The pattern matches at a position of the script exactly when the
    matcher succeeds on the text from that position on. *)
Lemma occurs_at_match_marker (script : string) (p : nat) :
  occurs_at script p
  <-> exists (len : nat) (n : string),
        match_marker (drop_str p script) = Some (len, n).
Proof.
  split.
  - intros (before & ws & c & rest & -> & <- & Hne & Hws & Hc).
    rewrite drop_str_app. now apply match_marker_complete.
  - intros (len & n & Hm).
    destruct (match_marker_sound _ _ _ Hm)
      as (ws & rest & Hs & _ & Hne & Hws & Hn & Hone & _).
    assert (Hp : p <= String.length script).
    { apply drop_str_length. rewrite Hs. discriminate. }
    destruct (drop_str_split _ _ Hp) as (before & Hb & Hbl).
    destruct n as [|c n]; [now contradiction Hn|].
    exists before, ws, c, (n +:+ rest).
    split; [now rewrite Hb at 1; rewrite Hs|].
    repeat split; trivial. exact (one_line_head _ _ Hone).
Qed.

Lemma found_from_extend (script : string) (from : nat)
    (ms : list re_match) :
  ~ occurs_at script from ->
  found_from script (S from) ms -> found_from script from ms.
Proof.
  intros Hno. destruct ms as [|m ms]; cbn [found_from].
  - intros H p Hp. destruct (Nat.eq_dec p from) as [->|Hne]; [exact Hno|].
    apply H. lia.
  - intros (H1 & H2 & H3). split; [lia|]. split; [|exact H3].
    intros p Hp. destruct (Nat.eq_dec p from) as [->|Hne]; [exact Hno|].
    apply H2. lia.
Qed.

(** What the scan reports is what is found from left to right; [pre] is the
    text of the script already passed. *)
Lemma finditer_from_found (script s : string) :
  forall (pre : string) (skip : nat),
    script = pre +:+ s ->
    found_from script (String.length pre + skip)
      (finditer_from skip (String.length pre) s).
Proof.
  induction s as [|c s IH]; intros pre skip Hs.
  - cbn [finditer_from found_from].
    intros p Hp (before & ws & d & rest & Heq & Hlen & _).
    apply (f_equal String.length) in Heq.
    rewrite Hs in Heq at 1. rewrite !length_append in Heq. simpl in Heq. lia.
  - assert (Hs' : script = (pre +:+ String c EmptyString) +:+ s)
      by (now rewrite append_assoc).
    assert (Hl : String.length (pre +:+ String c EmptyString)
                 = S (String.length pre))
      by (rewrite length_append; simpl; lia).
    cbn [finditer_from]. destruct skip as [|skip].
    + destruct (match_marker (String c s)) as [[len n]|] eqn:Hm.
      * destruct (match_marker_greedy _ _ _ Hm)
          as (ws & rest & Heq & Hlen & Hne & Hws & Hn & Hone & Hrest & Hmax).
        cbn [found_from m_start m_end m_group1].
        split; [lia|]. split; [intros p Hp; lia|]. split.
        -- exists pre, ws, rest. cbn [m_start m_end m_group1].
           rewrite Hs, Heq. repeat split; trivial. lia.
        -- specialize (IH _ (len - 1) Hs'). rewrite Hl in IH.
           replace (String.length pre + len)
             with (S (String.length pre) + (len - 1)) by lia.
           exact IH.
      * apply found_from_extend.
        -- rewrite occurs_at_match_marker, Nat.add_0_r, Hs, drop_str_app.
           intros (len & n & H). rewrite Hm in H. discriminate H.
        -- specialize (IH _ 0 Hs'). rewrite Hl in IH.
           now rewrite !Nat.add_0_r in *.
    + specialize (IH _ skip Hs'). rewrite Hl in IH.
      now replace (String.length pre + S skip)
        with (S (String.length pre) + skip) by lia.
Qed.

Lemma finditer_found (script : string) :
  found_from script 0 (finditer script).
Proof. exact (finditer_from_found script script EmptyString 0 eq_refl). Qed.

Lemma found_from_covers (script : string) (p : nat) (ms : list re_match) :
  forall from : nat,
    found_from script from ms ->
    from <= p -> occurs_at script p ->
    exists m : re_match, In m ms /\ m_start m <= p < m_end m.
Proof.
  induction ms as [|m ms IH]; intros from Hf Hp Ho; cbn [found_from] in Hf.
  - now contradiction (Hf p Hp).
  - destruct Hf as (H1 & H2 & _ & H4).
    destruct (Nat.lt_ge_cases p (m_start m)) as [Hlt|Hge].
    + now contradiction (H2 p (conj Hp Hlt)).
    + destruct (Nat.lt_ge_cases p (m_end m)) as [Hin|Hout].
      * exists m. split; [now left | lia].
      * destruct (IH _ H4 Hout Ho) as (m' & Hm' & Hc).
        exists m'. split; [now right | exact Hc].
Qed.

(** The scan misses nothing: every position of the script where the pattern
    matches lies in a reported match, of which it is the start unless it
    stands in its name. *)
Theorem finditer_complete (script : string) (p : nat) :
  occurs_at script p ->
  exists m : re_match,
    In m (finditer script) /\ m_start m <= p < m_end m.
Proof.
  apply (found_from_covers script p (finditer script) 0);
    [apply finditer_found | lia].
Qed.

Lemma finditer_complete_witness :
  exists m : re_match,
    In m (finditer script_marker_mid_line) /\ m_start m <= 8 < m_end m.
Proof.
  apply (finditer_complete script_marker_mid_line 8).
  exists "LOAD 1; ", " ", "X"%char, (String CR "B").
  repeat split; try reflexivity. discriminate.
Defined.

(** *** The matches found from left to right are determined *)

Lemma append_inj_length (a b a' b' : string) :
  a +:+ b = a' +:+ b' -> String.length a = String.length a' ->
  a = a' /\ b = b'.
Proof.
  revert a'. induction a as [|c a IH]; intros [|c' a'] H Hl;
    try discriminate Hl.
  - now split.
  - injection H as -> H. injection Hl as Hl.
    destruct (IH _ H Hl) as [-> ->]. now split.
Qed.

Lemma greedy_occurrence_occurs (script : string) (m : re_match) :
  greedy_occurrence script m -> occurs_at script (m_start m).
Proof.
  intros (before & ws & rest & Hs & Hl & _ & Hne & Hws & Hn & Hone & _).
  destruct (m_group1 m) as [|c n]; [now contradiction Hn|].
  exists before, ws, c, (n +:+ rest). repeat split; trivial.
  exact (one_line_head _ _ Hone).
Qed.

Lemma greedy_occurrence_inj (script : string) (m m' : re_match) :
  greedy_occurrence script m -> greedy_occurrence script m' ->
  m_start m = m_start m' -> m = m'.
Proof.
  intros (before & ws & rest & Hs & Hl & He & _ & Hws & Hn & Hone & Hr & Hmax)
         (before' & ws' & rest' & Hs' & Hl' & He' & _ & Hws' & Hn' & Hone'
          & Hr' & Hmax') Hstart.
  rewrite Hs' in Hs.
  apply append_inj_length in Hs as [_ Hs]; [|lia].
  apply (append_inj_length "///$tab" _ "///$tab") in Hs as [_ Hs];
    [|reflexivity].
  assert (Hle : String.length ws <= String.length ws').
  { destruct (m_group1 m) as [|c n] eqn:Hg; [now contradiction Hn|].
    apply (Hmax' ws c (n +:+ rest)); trivial.
    exact (one_line_head _ _ Hone). }
  assert (Hge : String.length ws' <= String.length ws).
  { destruct (m_group1 m') as [|c n] eqn:Hg; [now contradiction Hn'|].
    apply (Hmax ws' c (n +:+ rest')); [now symmetry | trivial |].
    exact (one_line_head _ _ Hone'). }
  apply append_inj_length in Hs as [Hw Hs]; [|lia].
  assert (Hname : m_group1 m = m_group1 m').
  { rewrite <- (span_name_app _ _ Hone Hr).
    rewrite <- (span_name_app _ _ Hone' Hr'). now rewrite Hs. }
  destruct m as [st en g], m' as [st' en' g'].
  cbn [m_start m_end m_group1] in *. subst. f_equal; lia.
Qed.

Lemma found_from_unique (script : string) (ms : list re_match) :
  forall (ms' : list re_match) (from : nat),
    found_from script from ms -> found_from script from ms' -> ms = ms'.
Proof.
  induction ms as [|m ms IH]; intros [|m' ms'] from H H';
    cbn [found_from] in H, H'.
  - reflexivity.
  - destruct H' as (H1 & _ & H3 & _).
    now contradiction (H _ H1 (greedy_occurrence_occurs _ _ H3)).
  - destruct H as (H1 & _ & H3 & _).
    now contradiction (H' _ H1 (greedy_occurrence_occurs _ _ H3)).
  - destruct H as (H1 & H2 & H3 & H4), H' as (H1' & H2' & H3' & H4').
    assert (Hstart : m_start m = m_start m').
    { destruct (Nat.lt_trichotomy (m_start m) (m_start m'))
        as [Hlt|[Heq|Hgt]]; [|exact Heq|].
      - now contradiction (H2' _ (conj H1 Hlt)
                             (greedy_occurrence_occurs _ _ H3)).
      - now contradiction (H2 _ (conj H1' Hgt)
                             (greedy_occurrence_occurs _ _ H3')). }
    pose proof (greedy_occurrence_inj _ _ _ H3 H3' Hstart) as <-.
    f_equal. exact (IH _ _ H4 H4').
Qed.

(** ** The tabs of the split *)

Lemma string_of_uint_digits (d : uint) :
  all_digits (NilEmpty.string_of_uint d) = true.
Proof. induction d; simpl; auto. Qed.

Lemma string_of_uint_inj (d d' : uint) :
  NilEmpty.string_of_uint d = NilEmpty.string_of_uint d' -> d = d'.
Proof.
  intros H. apply (f_equal NilEmpty.uint_of_string) in H.
  rewrite !NilEmpty.usu in H. now injection H.
Qed.

Lemma str_of_nat_inj (i j : nat) : str_of_nat i = str_of_nat j -> i = j.
Proof.
  intros H. apply Unsigned.to_uint_inj.
  now apply string_of_uint_inj.
Qed.

(** A run of digits that is followed by an underscore is determined by the
    text. *)
Lemma digits_before_underscore (a b r r' : string) :
  all_digits a = true -> all_digits b = true ->
  a +:+ String "_" r = b +:+ String "_" r' -> a = b.
Proof.
  revert b. induction a as [|c a IH]; intros [|d b] Ha Hb H; simpl in *.
  - reflexivity.
  - injection H as <- _. discriminate Hb.
  - injection H as -> _. discriminate Ha.
  - injection H as -> H.
    apply andb_true_iff in Ha as [_ Ha]. apply andb_true_iff in Hb as [_ Hb].
    f_equal. now apply IH.
Qed.

Lemma tab_key_inj (i j : nat) (n n' : string) :
  tab_key i n = tab_key j n' -> i = j /\ n = n'.
Proof.
  unfold tab_key. intros H.
  assert (Hs : str_of_nat i = str_of_nat j).
  { apply (digits_before_underscore _ _ ("__" +:+ n) ("__" +:+ n'));
      [apply string_of_uint_digits | apply string_of_uint_digits | exact H]. }
  rewrite Hs in H. apply String.app_inj in H.
  apply (String.app_inj "___") in H.
  split; [now apply str_of_nat_inj | exact H].
Qed.

Lemma tab_key_not_Main (i : nat) (n : string) : tab_key i n <> "Main".
Proof. intros H. exact (lacks_separator_Main _ _ (eq_sym H)). Qed.

Lemma dict_set_fresh (k v : string) (d : dict) :
  ~ In k (map fst d) -> dict_set k v d = d ++ [(k, v)].
Proof.
  induction d as [|[k1 v1] d IH]; intros Hk; [reflexivity|].
  simpl in *. destruct (String.eqb_spec k k1) as [->|Hne].
  - exfalso. apply Hk. now left.
  - rewrite IH; [reflexivity|]. intros Hin. apply Hk. now right.
Qed.

Lemma parse_tabs_loop_appends (script : string) (ms : list re_match) :
  forall (i : nat) (tabs : dict),
    keys_below i tabs ->
    parse_tabs_loop script i ms tabs = tabs ++ numbered_tabs script i ms.
Proof.
  induction ms as [|m ms IH]; intros i tabs Hkeys.
  - simpl. now rewrite app_nil_r.
  - cbn [parse_tabs_loop numbered_tabs].
    fold (tab_key i (m_group1 m)).
    rewrite dict_set_fresh.
    + rewrite IH; [now rewrite <- app_assoc|].
      intros k Hk. rewrite map_app in Hk. apply in_app_or in Hk as [Hk|Hk].
      * destruct (Hkeys k Hk) as [->|(j & n & Hj & ->)]; [now left|].
        right. exists j, n. split; [lia | reflexivity].
      * destruct Hk as [<-|[]]. right. exists i, (m_group1 m).
        split; [lia | reflexivity].
    + intros Hin. destruct (Hkeys _ Hin) as [Hm|(j & n & Hj & Hk)].
      * now apply tab_key_not_Main in Hm.
      * apply tab_key_inj in Hk as [-> _]. lia.
Qed.

Lemma parse_script_tabs_unfold (script : string) :
  parse_script_tabs script
  = match finditer script with
    | [] => [("Main", strip script)]
    | m0 :: _ =>
        leading_tab script m0 ++ numbered_tabs script 0 (finditer script)
    end.
Proof.
  unfold parse_script_tabs, leading_tab.
  destruct (finditer script) as [|m0 ms]; [reflexivity|].
  apply parse_tabs_loop_appends.
  intros k Hk. left.
  destruct (is_empty (strip (slice 0 (m_start m0) script)));
    [contradiction Hk|].
  destruct Hk as [<-|[]]. reflexivity.
Qed.

(** The split has one tab per marker, in the order of the markers, after the
    tab [Main] of the text that precedes the first marker when that text is
    not blank: no tab overwrites another one, whatever the names in the
    markers. *)
Theorem parse_script_tabs_spec (script : string) :
  parse_script_tabs script
  = match finditer script with
    | [] => [("Main", strip script)]
    | m0 :: _ =>
        leading_tab script m0 ++ numbered_tabs script 0 (finditer script)
    end.
Proof. apply parse_script_tabs_unfold. Qed.

(** C4, amended.  The marker text opens a tab wherever it stands, also
    after other text on its line.  The matches of the pattern found from
    left to right, the search resuming at the end of each match, are those
    that the split works on, and whatever list of matches is found in that
    way, the tabs of the split are the ones that it delimits: one tab for
    every such match, after the tab of the text before the first one. *)
Theorem marker_anywhere (script : string) :
  found_from script 0 (finditer script)
  /\ forall ms : list re_match,
       found_from script 0 ms ->
       parse_script_tabs script = tabs_of_matches script ms.
Proof.
  split; [apply finditer_found|].
  intros ms Hms.
  rewrite (found_from_unique _ _ _ _ Hms (finditer_found script)).
  apply parse_script_tabs_unfold.
Qed.

Lemma marker_anywhere_witness :
  parse_script_tabs script_marker_mid_line
  = tabs_of_matches script_marker_mid_line [MkMatch 8 17 "X"].
Proof.
  apply (proj2 (marker_anywhere script_marker_mid_line)).
  exact (proj1 (marker_anywhere script_marker_mid_line)).
Defined.

Lemma numbered_tabs_length (script : string) (ms : list re_match) :
  forall i : nat, List.length (numbered_tabs script i ms) = List.length ms.
Proof.
  induction ms as [|m ms IH]; intros i; simpl;
    [reflexivity | now rewrite IH].
Qed.

Lemma strip_idem (s : string) : strip (strip s) = strip s.
Proof.
  unfold strip.
  rewrite (lstrip_id (rstrip (lstrip s)))
    by apply rstrip_stripped, lstrip_stripped.
  apply rstrip_idem.
Qed.

Lemma numbered_tabs_stripped (script : string) (ms : list re_match) :
  forall i : nat,
    Forall (fun kv => strip (snd kv) = snd kv) (numbered_tabs script i ms).
Proof.
  induction ms as [|m ms IH]; intros i; simpl; constructor;
    [apply strip_idem | apply IH].
Qed.

Lemma parse_script_tabs_strip (script : string) :
  Forall (fun kv => strip (snd kv) = snd kv) (parse_script_tabs script).
Proof.
  rewrite parse_script_tabs_unfold.
  destruct (finditer script) as [|m0 ms].
  - repeat constructor. apply strip_idem.
  - apply Forall_app. split; [|apply numbered_tabs_stripped].
    unfold leading_tab. destruct (is_empty _); repeat constructor.
    apply strip_idem.
Qed.

(** The content of every tab of the split is stripped at both ends, and the
    keys of the tabs are pairwise distinct. *)
Theorem parse_script_tabs_contents (script : string) :
  Forall (fun kv => strip (snd kv) = snd kv) (parse_script_tabs script)
  /\ List.NoDup (map fst (parse_script_tabs script)).
Proof.
  split; [apply parse_script_tabs_strip | apply parse_script_tabs_ok].
Qed.

(** ** The files written by [save_tabs_as_qvs_files] *)

Lemma is_unsafe_underscore : is_unsafe "_" = false.
Proof. reflexivity. Qed.

Lemma sanitize_safe (s : string) : any_unsafe (sanitize s) = false.
Proof.
  induction s as [|c s IH]; [reflexivity|]. cbn [sanitize any_unsafe].
  rewrite IH, orb_false_r.
  destruct (is_unsafe c) eqn:Hc; [reflexivity | exact Hc].
Qed.

Lemma sanitize_id (s : string) : any_unsafe s = false -> sanitize s = s.
Proof.
  induction s as [|c s IH]; [reflexivity|]. cbn [sanitize any_unsafe].
  intros [Hc Hs]%orb_false_iff. now rewrite Hc, IH.
Qed.

Lemma sanitize_length (s : string) :
  String.length (sanitize s) = String.length s.
Proof. induction s as [|c s IH]; simpl; [reflexivity | now rewrite IH]. Qed.

Lemma sanitize_app (a b : string) :
  sanitize (a +:+ b) = sanitize a +:+ sanitize b.
Proof. induction a as [|c a IH]; simpl; [reflexivity | now rewrite IH]. Qed.

(** What [sanitize] returns is free of the characters that it replaces and
    has the length of the name; sanitising twice changes nothing more, and a
    name that has none of these characters is kept. *)
Theorem sanitize_spec (s : string) :
  any_unsafe (sanitize s) = false
  /\ String.length (sanitize s) = String.length s
  /\ sanitize (sanitize s) = sanitize s
  /\ (any_unsafe s = false -> sanitize s = s).
Proof.
  split; [apply sanitize_safe|]. split; [apply sanitize_length|].
  split; [apply sanitize_id, sanitize_safe | apply sanitize_id].
Qed.

Lemma sanitize_spec_witness : sanitize "0___Load data" = "0___Load data".
Proof.
  apply (proj2 (proj2 (proj2 (sanitize_spec "0___Load data")))).
  reflexivity.
Defined.

Lemma is_digit_safe (c : ascii) : is_digit c = true -> is_unsafe c = false.
Proof.
  unfold is_digit, is_unsafe. set (n := nat_of_ascii c).
  intros [Hlo Hhi]%andb_true_iff.
  apply Nat.leb_le in Hlo, Hhi.
  repeat (apply orb_false_iff; split); apply Nat.eqb_neq; lia.
Qed.

Lemma all_digits_safe (s : string) :
  all_digits s = true -> any_unsafe s = false.
Proof.
  induction s as [|c s IH]; [reflexivity|]. cbn [all_digits any_unsafe].
  intros [Hc Hs]%andb_true_iff. now rewrite (is_digit_safe _ Hc), IH.
Qed.

Lemma sanitize_tab_key (i : nat) (n : string) :
  sanitize (tab_key i n) = tab_key i (sanitize n).
Proof.
  unfold tab_key. rewrite !sanitize_app.
  rewrite (sanitize_id (str_of_nat i))
    by apply all_digits_safe, string_of_uint_digits.
  reflexivity.
Qed.

Lemma numbered_tabs_keys_from (script : string) (ms : list re_match) :
  forall i : nat, keys_from i (numbered_tabs script i ms).
Proof.
  unfold keys_from.
  induction ms as [|m ms IH]; intros i; simpl; constructor.
  - exists i, (m_group1 m). split; [lia | reflexivity].
  - eapply Forall_impl; [apply (IH (S i))|].
    intros kv (j & n & Hj & Hk). exists j, n. split; [lia | exact Hk].
Qed.

Lemma numbered_tabs_file_names (script : string) (ms : list re_match) :
  forall i : nat,
    List.NoDup (map (fun kv => sanitize (fst kv)) (numbered_tabs script i ms))
    /\ ~ In "Main"
         (map (fun kv => sanitize (fst kv)) (numbered_tabs script i ms)).
Proof.
  induction ms as [|m ms IH]; intros i; simpl.
  - split; [constructor | intros []].
  - destruct (IH (S i)) as [Hnd Hmain]. split.
    + constructor; [|exact Hnd].
      intros Hin. apply in_map_iff in Hin as ([k v] & Hk & Hin).
      pose proof (numbered_tabs_keys_from script ms (S i)) as Hfrom.
      unfold keys_from in Hfrom. rewrite List.Forall_forall in Hfrom.
      destruct (Hfrom _ Hin) as (j & n & Hj & Hkj). simpl in Hk, Hkj.
      subst k. fold (tab_key i (m_group1 m)) in Hk.
      rewrite !sanitize_tab_key in Hk.
      apply tab_key_inj in Hk as [-> _]. lia.
    + intros [H|H]; [|now apply Hmain].
      fold (tab_key i (m_group1 m)) in H. rewrite sanitize_tab_key in H.
      now apply tab_key_not_Main in H.
Qed.

(** Distinct tabs of a split are written to distinct files. *)
Lemma parse_script_tabs_file_names (script : string) :
  List.NoDup (map (fun kv => sanitize (fst kv)) (parse_script_tabs script)).
Proof.
  rewrite parse_script_tabs_unfold.
  destruct (finditer script) as [|m0 ms]; [repeat constructor; intros []|].
  destruct (numbered_tabs_file_names script (m0 :: ms) 0) as [Hnd Hmain].
  unfold leading_tab. destruct (is_empty _); [exact Hnd|].
  simpl. constructor; [exact Hmain | exact Hnd].
Qed.

Lemma contains_char_app (c : ascii) (a b : string) :
  contains_char c (a +:+ b) = contains_char c a || contains_char c b.
Proof.
  induction a as [|d a IH]; [reflexivity|]. simpl.
  now rewrite IH, orb_assoc.
Qed.

Lemma utf8_length_app (a b : string) :
  utf8_length (a +:+ b) = utf8_length a + utf8_length b.
Proof.
  induction a as [|d a IH]; [reflexivity|]. simpl. rewrite IH. lia.
Qed.

Lemma is_unsafe_ascii (c : ascii) :
  is_unsafe c = true -> nat_of_ascii c <> 0 /\ nat_of_ascii c < 128.
Proof.
  unfold is_unsafe. set (n := nat_of_ascii c). intros H.
  repeat (apply orb_true_iff in H as [H|H]);
    apply Nat.eqb_eq in H; lia.
Qed.

Lemma contains_NUL_sanitize (s : string) :
  contains_char NUL (sanitize s) = contains_char NUL s.
Proof.
  induction s as [|c s IH]; [reflexivity|].
  cbn [sanitize contains_char]. rewrite IH. f_equal.
  destruct (is_unsafe c) eqn:Hc; [|reflexivity].
  apply is_unsafe_ascii in Hc as [Hc _].
  destruct (Ascii.eqb_spec NUL c) as [<-|]; [|reflexivity].
  now contradiction Hc.
Qed.

Lemma utf8_length_sanitize (s : string) :
  utf8_length (sanitize s) = utf8_length s.
Proof.
  induction s as [|c s IH]; [reflexivity|].
  cbn [sanitize utf8_length]. rewrite IH. f_equal.
  destruct (is_unsafe c) eqn:Hc; [|reflexivity].
  apply is_unsafe_ascii in Hc as [_ Hc].
  now rewrite (proj2 (Nat.ltb_lt _ _) Hc).
Qed.

(** Opening the file of a tab succeeds exactly for the tabs that are
    [writable]. *)
Lemma open_for_writing_writable (tab : string * string) :
  match open_for_writing (sanitize (fst tab) +:+ ".qvs") with
  | Ok _ => writable tab = true
  | Raise _ => writable tab = false
  end.
Proof.
  unfold open_for_writing, writable.
  rewrite contains_char_app, contains_NUL_sanitize, orb_false_r.
  rewrite utf8_length_app, utf8_length_sanitize.
  change (utf8_length ".qvs") with 4.
  destruct (contains_char NUL (fst tab)); [reflexivity|]. cbn [negb andb].
  destruct (Nat.ltb_spec NAME_MAX (utf8_length (fst tab) + 4)).
  - apply Nat.leb_gt. lia.
  - apply Nat.leb_le. lia.
Qed.

Lemma written_tabs_all (tabs : dict) :
  forallb writable tabs = true <-> written_tabs tabs = tabs.
Proof.
  induction tabs as [|tab tabs IH]; [easy|].
  cbn [forallb written_tabs]. destruct (writable tab); cbn [andb].
  - rewrite IH. split; [now intros -> | now intros [= ->]].
  - split; discriminate.
Qed.

Lemma written_tabs_incl (tabs : dict) (tab : string * string) :
  In tab (written_tabs tabs) -> In tab tabs.
Proof.
  induction tabs as [|t tabs IH]; [easy|]. cbn [written_tabs].
  destruct (writable t); [|easy]. intros [->|H]; [now left|].
  right. now apply IH.
Qed.

Lemma save_tabs_loop_listing (tabs : dict) :
  forall (dir : gmap string string) (created : list string),
    List.NoDup (map (fun kv => sanitize (fst kv)) tabs) ->
    (forall kv, In kv tabs -> dir !! sanitize (fst kv) = None) ->
    map_to_list (fst (save_tabs_loop tabs dir created))
    ≡ₚ map file_of_tab (written_tabs tabs) ++ map_to_list dir.
Proof.
  induction tabs as [|[k c] tabs IH]; intros dir created Hnd Hfree;
    [reflexivity|].
  cbn [save_tabs_loop written_tabs].
  pose proof (open_for_writing_writable (k, c)) as Hopen. cbn [fst] in Hopen.
  destruct (open_for_writing (sanitize k +:+ ".qvs")) as [[]|e];
    rewrite Hopen; [|reflexivity].
  inversion Hnd as [|? ? Hnotin Hnd']; subst.
  rewrite IH; trivial.
  - rewrite map_to_list_insert by (apply (Hfree (k, c)); now left).
    cbn [map]. unfold file_of_tab at 2. cbn [fst snd].
    symmetry. apply Permutation_middle.
  - intros kv Hkv. rewrite lookup_insert_ne; [apply Hfree; now right|].
    intros Heq. apply Hnotin. rewrite Heq.
    now apply (in_map (fun kv => sanitize (fst kv))).
Qed.

(** The loop returns exactly when the file of every tab can be opened. *)
Lemma save_tabs_loop_returns (tabs : dict) :
  forall (dir : gmap string string) (created : list string),
    (exists created', snd (save_tabs_loop tabs dir created) = Ok created')
    <-> forallb writable tabs = true.
Proof.
  induction tabs as [|[k c] tabs IH]; intros dir created.
  - split; [reflexivity | intros _; now exists created].
  - cbn [save_tabs_loop forallb].
    pose proof (open_for_writing_writable (k, c)) as Hopen.
    cbn [fst] in Hopen.
    destruct (open_for_writing (sanitize k +:+ ".qvs")) as [[]|e];
      rewrite Hopen; cbn [andb]; [apply IH|].
    split; [intros [? H]; discriminate H | discriminate].
Qed.

Lemma get_listing (app_script : string) (g : list qvs_file) :
  listing (get app_script) g
  <-> g ≡ₚ map file_of_tab (written_tabs (parse_script_tabs app_script)).
Proof.
  unfold listing, get, save_tabs_as_qvs_files.
  rewrite save_tabs_loop_listing;
    [|apply parse_script_tabs_file_names | intros; apply lookup_empty].
  rewrite map_to_list_empty, app_nil_r. reflexivity.
Qed.

Lemma get_outcome_returns (app_script : string) :
  get_outcome app_script = Ok tt
  <-> forallb writable (parse_script_tabs app_script) = true.
Proof.
  unfold get_outcome, save_tabs_as_qvs_files. cbv zeta.
  rewrite <- (save_tabs_loop_returns _ ∅ []).
  destruct (snd (save_tabs_loop _ ∅ [])) as [created|e]; cbn [bind].
  - split; [intros _; now exists created | reflexivity].
  - split; [discriminate | intros [? H]; discriminate H].
Qed.

(** The directory that [get] leaves holds one file for each tab of the
    split that comes before the first tab whose file cannot be opened, and
    nothing else: its listings are the permutations of these tabs, each
    with its key sanitised as stem and its content with normalised line
    ends as text.  [get] returns exactly when the file of every tab can be
    opened, and the directory then has a file for each tab of the split. *)
Theorem get_writes_each_tab (app_script : string) (g : list qvs_file) :
  (listing (get app_script) g
   <-> g ≡ₚ map file_of_tab (written_tabs (parse_script_tabs app_script)))
  /\ (get_outcome app_script = Ok tt
      <-> forallb writable (parse_script_tabs app_script) = true)
  /\ (get_outcome app_script = Ok tt ->
      written_tabs (parse_script_tabs app_script)
      = parse_script_tabs app_script).
Proof.
  split; [apply get_listing|]. split; [apply get_outcome_returns|].
  intros H. now apply written_tabs_all, get_outcome_returns.
Qed.

Lemma get_writes_each_tab_witness :
  listing (get script_long_name) [("0___A", "x")]
  /\ written_tabs (parse_script_tabs script_two_tabs)
     = parse_script_tabs script_two_tabs.
Proof.
  split.
  - apply (proj1 (get_writes_each_tab script_long_name [("0___A", "x")])).
    vm_compute. apply Permutation_refl.
  - apply (proj2 (proj2 (get_writes_each_tab script_two_tabs []))).
    reflexivity.
Defined.


Lemma strip_rstrip (t : string) : strip t = t -> rstrip t = t.
Proof.
  intros H. rewrite <- H at 1. unfold strip. rewrite rstrip_idem. exact H.
Qed.

Lemma clean_text_normalize (c : string) :
  strip c = c -> clean_text (normalize_eol c).
Proof.
  intros Hc. split; [apply replace_lf_no_lf|]. split.
  - rewrite <- Hc. apply strip_normalize_eol_strip.
  - apply normalize_eol_idem.
Qed.

(** Every file that [get] leaves has a stem free of the characters that
    [sanitize] replaces and a text without line feed that [strip], [rstrip]
    and the normalisation of line ends leave unchanged: both ways of reading
    the directory see the text as written. *)
Theorem get_writes_clean_files (app_script : string) (g : list qvs_file) :
  listing (get app_script) g ->
  Forall (fun f => any_unsafe (stem f) = false
                   /\ clean_text (text f) /\ rstrip (text f) = text f) g.
Proof.
  intros Hg. apply get_listing in Hg.
  apply List.Forall_forall. intros f Hf.
  apply (Permutation_in _ Hg), in_map_iff in Hf as (kv & <- & Hkv).
  apply written_tabs_incl in Hkv.
  pose proof (parse_script_tabs_strip app_script) as Hall.
  rewrite List.Forall_forall in Hall. specialize (Hall _ Hkv).
  unfold file_of_tab, stem, text. cbn [fst snd].
  pose proof (clean_text_normalize _ Hall) as Hclean.
  split; [apply sanitize_safe|]. split; [exact Hclean|].
  apply strip_rstrip, Hclean.
Qed.

Lemma get_writes_clean_files_witness :
  Forall (fun f => any_unsafe (stem f) = false
                   /\ clean_text (text f) /\ rstrip (text f) = text f)
    (map_to_list (get script_with_leading_text)).
Proof.
  apply (get_writes_clean_files script_with_leading_text).
  apply Permutation_refl.
Defined.

(** ** When [get_app_script_tabbed] returns *)

Lemma split_sep_not_nil (s : string) : split_sep s <> [].
Proof.
  destruct s as [|c s]; [discriminate|]. cbn [split_sep].
  destruct (strip_prefix "___" (String c s)); [destruct s as [|? [|? ?]]|];
    try discriminate; destruct (split_sep _); discriminate.
Qed.

Lemma split_sep_second (s : string) :
  has_separator s <-> exists n : string, nth_error (split_sep s) 1 = Some n.
Proof.
  induction s as [|c s IH].
  - split; [|intros [n Hn]; discriminate Hn].
    intros (a & b & H). destruct a; discriminate H.
  - cbn [split_sep].
    destruct (strip_prefix "___" (String c s)) as [r|] eqn:Hp.
    + pose proof (strip_prefix_Some _ _ _ Hp) as Hs.
      injection Hs as -> ->. split.
      * intros _. destruct (split_sep r) as [|h t] eqn:Hr;
          [now apply split_sep_not_nil in Hr | now exists h].
      * intros _. now exists EmptyString, r.
    + assert (Hshape : split_sep s <> []) by apply split_sep_not_nil.
      assert (Hgoal :
                has_separator (String c s)
                <-> exists n, nth_error
                                (match split_sep s with
                                 | h :: t => String c h :: t
                                 | [] => [String c EmptyString]
                                 end) 1 = Some n).
      { destruct (split_sep s) as [|h t] eqn:Hsp; [now contradiction Hshape|].
        cbn [nth_error] in *. rewrite <- IH. split.
        - intros (a & b & H). destruct a as [|a0 a].
          + change (String c s = "___" +:+ b) in H.
            rewrite H, strip_prefix_app in Hp. discriminate Hp.
          + simpl in H. injection H as _ ->. now exists a, b.
        - intros (a & b & ->). now exists (String c a), b. }
      destruct s as [|c2 [|c3 s3]]; exact Hgoal.
Qed.

Lemma lacks_or_has_separator (s : string) :
  lacks_separator s \/ has_separator s.
Proof.
  destruct (nth_error (split_sep s) 1) as [n|] eqn:Hn.
  - right. apply split_sep_second. now exists n.
  - left. intros a b H.
    assert (Hs : has_separator s) by now exists a, b.
    apply split_sep_second in Hs as [n' Hn']. congruence.
Qed.

Lemma tabbed_loop_ok (files : list qvs_file) :
  (forall f, In f files -> rstrip (text f) <> EmptyString ->
             has_separator (stem f)) ->
  forall combined_parts : list string,
    tabbed_loop files combined_parts
    = Ok (combined_parts ++ map tabbed_fragment (List.filter has_text files)).
Proof.
  induction files as [|f files IH]; intros Hsep parts.
  - simpl. now rewrite app_nil_r.
  - cbn [tabbed_loop List.filter]. unfold has_text at 1.
    assert (Hc : (if is_empty (text f) then text f else rstrip (text f))
                 = rstrip (text f)).
    { destruct (text f); reflexivity. }
    rewrite Hc.
    destruct (rstrip (text f)) as [|c r] eqn:Hr.
    + cbn [is_empty negb]. apply IH. intros g Hg. apply Hsep. now right.
    + cbn [is_empty negb].
      destruct (proj1 (split_sep_second (stem f))) as [n Hn].
      { apply Hsep; [now left|]. rewrite Hr. discriminate. }
      rewrite Hn. rewrite IH by (intros g Hg; apply Hsep; now right).
      cbn [map]. rewrite <- app_assoc. cbn [app].
      unfold tabbed_fragment, tab_name_of.
      rewrite Hr. now rewrite (nth_error_nth _ _ _ Hn).
Qed.

(** [get_app_script_tabbed] returns a script for a directory with files
    exactly when every file with text has a stem with the separator.  The
    script is then made of the files with text, in ascending order of their
    keys, each under the name found between the first and the second
    separator of its stem, joined by two carriage returns. *)
Theorem get_app_script_tabbed_returns (script_dir : string)
    (qvs_files : list qvs_file) :
  qvs_files <> [] ->
  ((exists script,
       get_app_script_tabbed script_dir (Some qvs_files) = Ok script)
   <-> (forall f, In f qvs_files -> rstrip (text f) <> EmptyString ->
                  has_separator (stem f)))
  /\ ((forall f, In f qvs_files -> rstrip (text f) <> EmptyString ->
                 has_separator (stem f)) ->
      get_app_script_tabbed script_dir (Some qvs_files)
      = Ok (join (String CR (String CR EmptyString))
              (map tabbed_fragment
                 (List.filter has_text (tabbed_order qvs_files))))).
Proof.
  intros Hne.
  assert (Hok : (forall f, In f qvs_files -> rstrip (text f) <> EmptyString ->
                           has_separator (stem f)) ->
                get_app_script_tabbed script_dir (Some qvs_files)
                = Ok (join (String CR (String CR EmptyString))
                        (map tabbed_fragment
                           (List.filter has_text (tabbed_order qvs_files))))).
  { intros Hsep. unfold get_app_script_tabbed.
    destruct qvs_files as [|f0 files]; [now contradiction Hne|].
    rewrite tabbed_loop_ok; [reflexivity|].
    intros f Hf. apply Hsep.
    exact (Permutation_in f (sorted_perm false (f0 :: files)) Hf). }
  split; [|exact Hok]. split.
  - intros [script Hs] f Hf Htext.
    destruct (lacks_or_has_separator (stem f)) as [Hlack|Hhas]; [|exact Hhas].
    rewrite (get_app_script_tabbed_raises script_dir f _ Hf Hlack Htext) in Hs.
    discriminate Hs.
  - intros Hsep. eexists. now apply Hok.
Qed.

Lemma get_app_script_tabbed_returns_witness :
  get_app_script_tabbed "scripts/App/id" (Some two_tabs)
  = Ok (join (String CR (String CR EmptyString))
          (map tabbed_fragment (List.filter has_text (tabbed_order two_tabs)))).
Proof.
  apply (proj2 (get_app_script_tabbed_returns "scripts/App/id" two_tabs
                  ltac:(discriminate))).
  intros f [<-|[<-|[]]] _; [now exists "0", "A" | now exists "1", "B"].
Defined.


(** ** Publishing what was fetched *)

(** A list sorted by keys is the only sorted arrangement of its files when
    its keys increase strictly. *)
Lemma sorted_arrangement_unique (L : list qvs_file) :
  StronglySorted strictly_before L ->
  forall l : list qvs_file,
    StronglySorted (file_before false) l -> l ≡ₚ L -> l = L.
Proof.
  induction 1 as [|y L HL IH Hy]; intros l Hl Hperm.
  - now apply Permutation_nil, Permutation_sym.
  - destruct l as [|x l].
    + apply Permutation_nil_cons in Hperm. contradiction.
    + inversion Hl as [|? ? Hl' Hx]; subst.
      assert (Hxy : x = y).
      { destruct (Permutation_in x Hperm (or_introl eq_refl)) as [Heq|Hin];
          [now symmetry|].
        destruct (Permutation_in y (Permutation_sym Hperm) (or_introl eq_refl))
          as [Heq|Hin']; [exact Heq|].
        rewrite List.Forall_forall in Hy, Hx.
        pose proof (Hy _ Hin) as H1. pose proof (Hx _ Hin') as H2.
        unfold strictly_before in H1.
        unfold file_before, key_before, key_le in H2. congruence. }
      subst y. f_equal. apply IH; [exact Hl'|].
      now apply Permutation_cons_inv in Hperm.
Qed.

Lemma tabbed_order_of_listing (L g : list qvs_file) :
  StronglySorted strictly_before L -> g ≡ₚ L -> tabbed_order g = L.
Proof.
  intros HL Hg. apply (sorted_arrangement_unique L HL).
  - apply sorted_ordered.
  - unfold tabbed_order. now rewrite sorted_perm.
Qed.

Lemma sort_key_tab_key (i : nat) (n c : string) :
  i < 10 -> sort_key (tab_key i n, c) = digit_key i.
Proof.
  intros Hi.
  do 10 (destruct i as [|i]; [reflexivity|]). lia.
Qed.

Lemma digit_key_lt (i j : nat) :
  i < j -> j < 10 -> String.leb (digit_key j) (digit_key i) = false.
Proof.
  intros Hij Hj.
  do 10 (destruct j as [|j];
         [do 10 (destruct i as [|i]; [first [reflexivity | lia]|]); lia|]).
  lia.
Qed.

Lemma numbered_tabs_keys_between (script : string) (ms : list re_match) :
  forall i : nat,
    keys_between i (i + List.length ms) (numbered_tabs script i ms).
Proof.
  unfold keys_between.
  induction ms as [|m ms IH]; intros i; simpl; constructor.
  - exists i, (m_group1 m). split; [lia | reflexivity].
  - eapply Forall_impl; [apply (IH (S i))|].
    intros kv (j & n & Hj & Hk). exists j, n. split; [lia | exact Hk].
Qed.

(** The files of at most ten numbered tabs have strictly increasing keys. *)
Lemma numbered_tabs_files_sorted (script : string) (ms : list re_match) :
  forall i : nat,
    i + List.length ms <= 10 ->
    StronglySorted strictly_before
      (map file_of_tab (numbered_tabs script i ms)).
Proof.
  induction ms as [|m ms IH]; intros i Hi; simpl; constructor.
  - apply IH. simpl in Hi. lia.
  - apply List.Forall_forall. intros f Hf.
    apply in_map_iff in Hf as ([k c] & <- & Hkc).
    pose proof (numbered_tabs_keys_between script ms (S i)) as Hb.
    unfold keys_between in Hb. rewrite List.Forall_forall in Hb.
    destruct (Hb _ Hkc) as (j & n & Hj & Hk). simpl in Hk. subst k.
    simpl in Hi.
    unfold strictly_before, file_of_tab. cbn [fst snd].
    fold (tab_key i (m_group1 m)). rewrite !sanitize_tab_key.
    rewrite !sort_key_tab_key by lia. apply digit_key_lt; lia.
Qed.

Lemma tab_key_has_separator (i : nat) (n : string) :
  has_separator (tab_key i n).
Proof. now exists (str_of_nat i), n. Qed.

Lemma normalize_eol_is_empty (s : string) :
  is_empty (normalize_eol s) = is_empty s.
Proof.
  destruct s as [|c s]; [reflexivity|].
  destruct (replace_crlf_nonempty c s) as (d & r & Hr).
  unfold normalize_eol. now rewrite Hr.
Qed.

(** Reading back the file of a tab of a split gives the fragment of that
    tab. *)
Lemma tabbed_fragments_of_tabs (tabs : dict) :
  Forall (fun kv => strip (snd kv) = snd kv) tabs ->
  map tabbed_fragment (List.filter has_text (map file_of_tab tabs))
  = map published_fragment (List.filter has_content tabs).
Proof.
  induction 1 as [|[k c] tabs Hc _ IH]; [reflexivity|].
  cbn [map List.filter]. simpl in Hc.
  pose proof (clean_text_normalize _ Hc) as (_ & Hstrip & Hnorm).
  apply strip_rstrip in Hstrip.
  unfold has_text at 1, has_content at 1, file_of_tab at 1, text.
  cbn [fst snd]. rewrite Hstrip, normalize_eol_is_empty.
  destruct (is_empty c); cbn [negb]; [exact IH|].
  cbn [map]. rewrite IH. f_equal.
  unfold tabbed_fragment, published_fragment, file_of_tab, stem, text.
  cbn [fst snd]. now rewrite Hstrip, Hnorm.
Qed.

(** After a [get] that has returned, on a script that starts with a marker
    and has at most ten markers, [set] publishes, for every listing of the
    directory, the tabs of the split that have content, in the order of the
    markers, each under the name read from its file stem and with its
    content with normalised line ends, joined by two carriage returns. *)
Theorem set_after_get (script_dir app_script : string) (m0 : re_match)
    (ms : list re_match) (g : list qvs_file) :
  finditer app_script = m0 :: ms ->
  leading_tab app_script m0 = [] ->
  List.length (m0 :: ms) <= 10 ->
  get_outcome app_script = Ok tt ->
  listing (get app_script) g ->
  set script_dir (Some g)
  = Ok (join (String CR (String CR EmptyString))
          (map published_fragment
             (List.filter has_content (parse_script_tabs app_script)))).
Proof.
  intros Hfind Hlead Hlen Hret Hg.
  apply get_listing in Hg.
  apply get_outcome_returns, written_tabs_all in Hret. rewrite Hret in Hg.
  pose proof (parse_script_tabs_strip app_script) as Hstrip.
  rewrite parse_script_tabs_unfold, Hfind, Hlead in Hg, Hstrip |- *.
  cbn [app] in Hg, Hstrip |- *.
  set (tabs := numbered_tabs app_script 0 (m0 :: ms)) in *.
  assert (Hsorted : StronglySorted strictly_before (map file_of_tab tabs))
    by now apply numbered_tabs_files_sorted.
  assert (Hne : g <> []).
  { intros ->. apply Permutation_nil in Hg. discriminate Hg. }
  unfold set, get_app_script_tabbed.
  destruct g as [|f0 g']; [now contradiction Hne|].
  rewrite (tabbed_order_of_listing _ _ Hsorted Hg).
  rewrite tabbed_loop_ok.
  - cbn [bind app]. now rewrite tabbed_fragments_of_tabs.
  - intros f Hf _. apply in_map_iff in Hf as ([k c] & <- & Hkc).
    pose proof (numbered_tabs_keys_from app_script (m0 :: ms) 0) as Hfrom.
    unfold keys_from in Hfrom. rewrite List.Forall_forall in Hfrom.
    destruct (Hfrom _ Hkc) as (j & n & _ & Hk). simpl in Hk. subst k.
    unfold file_of_tab, stem. cbn [fst]. rewrite sanitize_tab_key.
    apply tab_key_has_separator.
Qed.

Lemma set_after_get_witness :
  set "scripts/App/id" (Some (map_to_list (get script_two_tabs)))
  = Ok (join (String CR (String CR EmptyString))
          (map published_fragment
             (List.filter has_content (parse_script_tabs script_two_tabs)))).
Proof.
  apply (set_after_get "scripts/App/id" script_two_tabs
           (MkMatch 0 9 "A") [MkMatch 12 21 "B"]).
  - reflexivity.
  - reflexivity.
  - simpl. lia.
  - reflexivity.
  - apply Permutation_refl.
Defined.


Lemma split_sep_after_digits (a b : string) :
  all_digits a = true -> split_sep (a +:+ "___" +:+ b) = a :: split_sep b.
Proof.
  induction a as [|d a IH]; intros Ha; [reflexivity|].
  cbn [all_digits] in Ha. apply andb_true_iff in Ha as [Hd Ha].
  change (String d a +:+ "___" +:+ b) with (String d (a +:+ "___" +:+ b)).
  cbn [split_sep].
  assert (Hp : strip_prefix "___" (String d (a +:+ "___" +:+ b)) = None).
  { cbn [strip_prefix].
    destruct (Ascii.eqb_spec "_" d) as [<-|]; [|reflexivity].
    discriminate Hd. }
  rewrite Hp, (IH Ha).
  destruct (a +:+ "___" +:+ b) as [|? [|? ?]]; reflexivity.
Qed.

(** The name of a tab is read back from its file stem as it stood in the
    marker, provided it has none of the characters that [sanitize] replaces
    and no run of three underscores. *)
Theorem tab_name_recovered (i : nat) (name : string) :
  any_unsafe name = false ->
  lacks_separator name ->
  tab_name_of (sanitize (tab_key i name)) = name.
Proof.
  intros Hsafe Hsep.
  rewrite sanitize_tab_key, (sanitize_id _ Hsafe).
  unfold tab_name_of, tab_key.
  rewrite split_sep_after_digits by apply string_of_uint_digits.
  now rewrite (split_sep_lacks_separator _ Hsep).
Qed.

Lemma tab_name_recovered_witness :
  tab_name_of (sanitize (tab_key 3 "Load data")) = "Load data".
Proof.
  apply (tab_name_recovered 3 "Load data"); [reflexivity|].
  intros a b H.
  do 10 (destruct a as [|? a]; [discriminate H|]).
  destruct a; discriminate H.
Defined.


Lemma sort_key_tab_key_teens (j : nat) (n1 n2 c1 c2 : string) :
  10 <= j < 20 ->
  strictly_before (tab_key j n2, c2) (tab_key 1 n1, c1).
Proof.
  intros [Hlo Hhi]. unfold strictly_before.
  do 10 (destruct j as [|j]; [lia|]).
  do 10 (destruct j as [|j]; [reflexivity|]). lia.
Qed.

Lemma StronglySorted_app_tail {A : Type} (R : A -> A -> Prop)
    (l1 l2 : list A) :
  StronglySorted R (l1 ++ l2) -> StronglySorted R l2.
Proof.
  induction l1 as [|x l1 IH]; [trivial|]. simpl. intros H.
  apply IH. now inversion H.
Qed.

(** Beyond ten tabs the order of the markers is lost: in every directory
    that holds the file of a tab of index 10 to 19 and the file of the tab
    of index 1, whatever its other files and the order of the listing,
    [get_app_script_tabbed] reads the first of these two files before the
    second. *)
Theorem tabbed_order_teens_first (j : nat) (n1 n2 c1 c2 : string)
    (g : list qvs_file) :
  10 <= j < 20 ->
  In (tab_key 1 n1, c1) g ->
  In (tab_key j n2, c2) g ->
  exists l1 l2 l3 : list qvs_file,
    tabbed_order g
    = l1 ++ (tab_key j n2, c2) :: l2 ++ (tab_key 1 n1, c1) :: l3.
Proof.
  intros Hj H1 Hjn. unfold tabbed_order.
  pose proof (sorted_ordered false g) as Hs.
  pose proof (sorted_perm false g) as Hp.
  apply (Permutation_in _ (Permutation_sym Hp)) in H1, Hjn.
  destruct (in_split _ _ H1) as (l & l3 & Heq).
  rewrite Heq in Hjn, Hs |- *.
  apply in_app_or in Hjn as [Hin|[Hin|Hin]].
  - destruct (in_split _ _ Hin) as (l1 & l2 & ->).
    exists l1, l2, l3. now rewrite <- app_assoc.
  - exfalso. injection Hin as Hk _. apply tab_key_inj in Hk as [<- _]. lia.
  - exfalso. apply StronglySorted_app_tail in Hs.
    apply StronglySorted_inv in Hs as [_ Hall].
    rewrite List.Forall_forall in Hall. specialize (Hall _ Hin).
    pose proof (sort_key_tab_key_teens j n1 n2 c1 c2 Hj) as Hlt.
    unfold file_before, key_before, key_le in Hall.
    unfold strictly_before in Hlt. congruence.
Qed.

Lemma tabbed_order_teens_first_witness :
  exists l1 l2 l3 : list qvs_file,
    tabbed_order [("0___A", "x"); ("1___B", "y"); ("2___C", "u");
                  ("10___K", "z"); ("Main", "m")]
    = l1 ++ ("10___K", "z") :: l2 ++ ("1___B", "y") :: l3.
Proof.
  apply (tabbed_order_teens_first 10 "B" "K" "y" "z"); [lia | |].
  - right. left. reflexivity.
  - do 3 right. left. reflexivity.
Defined.


(** ** The run of the generator *)

Lemma stream_reload_log_shape (clear_on_update : bool)
    (answers : list poll_answer) :
  forall (n : nat) (events : list event) (o : outcome),
    stream_reload_log clear_on_update n answers = (events, o) ->
    polls events = List.length (updates events)
    /\ polls events <= List.length answers
    /\ match o with
       | Returned =>
           exists (us : list update) (u : update),
             updates events = us ++ [u]
             /\ none_complete us /\ is_complete u = true
       | Running _ =>
           polls events = List.length answers
           /\ none_complete (updates events)
       end.
Proof.
  induction answers as [|a answers IH]; intros n events o H.
  - simpl in H. injection H as <- <-. repeat split; constructor.
  - destruct a as [d|e]; cbn [stream_reload_log] in H.
    + destruct (is_complete (make_update clear_on_update n d)) eqn:Hc.
      * injection H as <- <-. simpl. split; [reflexivity|]. split; [lia|].
        exists [], (make_update clear_on_update n d).
        repeat split; [constructor | exact Hc].
      * destruct (stream_reload_log clear_on_update _ answers)
          as [ev o'] eqn:Hrec.
        injection H as <- <-.
        destruct (IH _ _ _ Hrec) as (H1 & H2 & H3).
        simpl. split; [now rewrite H1|]. split; [lia|].
        destruct o' as [|n'].
        -- destruct H3 as (us & u & Hus & Hnone & Hu).
           exists (make_update clear_on_update n d :: us), u.
           rewrite Hus. repeat split; [now constructor | exact Hu].
        -- destruct H3 as [H3 H4]. split; [now rewrite H3 | now constructor].
    + injection H as <- <-. simpl. split; [reflexivity|]. split; [lia|].
      exists [], (error_update e). repeat split. constructor.
Qed.

(** Every poll is followed by exactly one update.  The generator returns only
    after an update marked complete, which is then the last one, and no
    earlier update is marked complete; as long as it has not returned it
    has polled once for every answer. *)
Theorem stream_reload_log_one_update_per_poll (clear_on_update : bool)
    (n : nat) (answers : list poll_answer) :
  let (events, o) := stream_reload_log clear_on_update n answers in
  polls events = List.length (updates events)
  /\ polls events <= List.length answers
  /\ match o with
     | Returned =>
         exists (us : list update) (u : update),
           updates events = us ++ [u]
           /\ none_complete us /\ is_complete u = true
     | Running _ =>
         polls events = List.length answers
         /\ none_complete (updates events)
     end.
Proof.
  destruct (stream_reload_log clear_on_update n answers) as [events o] eqn:H.
  exact (stream_reload_log_shape _ _ _ _ _ H).
Qed.

Lemma substring_all (s : string) : substring 0 (String.length s) s = s.
Proof. induction s as [|c s IH]; simpl; [reflexivity | now rewrite IH]. Qed.

Lemma slice_suffix (a b : string) :
  slice (String.length a) (String.length (a +:+ b)) (a +:+ b) = b.
Proof.
  unfold slice. rewrite length_append.
  replace (String.length a + String.length b - String.length a)
    with (String.length b) by lia.
  induction a as [|c a IH]; [apply substring_all | exact IH].
Qed.

(** Without [clear_on_update], the update of a poll whose log extends the
    text seen so far carries what was added. *)
Lemma make_update_delta (prev delta : string) (d : log_data) :
  log_of d = prev +:+ delta ->
  log (make_update false (String.length prev) d) = delta
  /\ (if String.length prev <? String.length (log_of d)
      then String.length (log_of d) else String.length prev)
     = String.length (log_of d).
Proof.
  intros Hd. unfold make_update. fold (log_of d). rewrite Hd.
  rewrite length_append.
  destruct (Nat.ltb_spec (String.length prev)
              (String.length prev + String.length delta)) as [Hlt|Hge].
  - cbn [log]. rewrite <- length_append. split; [apply slice_suffix|].
    reflexivity.
  - cbn [log]. destruct delta; [split; [reflexivity | simpl; lia]|].
    simpl in Hge. lia.
Qed.

Lemma stream_reload_log_deltas (ds : list log_data) :
  forall prev : string,
    growing prev ds ->
    let events :=
      fst (stream_reload_log false (String.length prev) (map Answered ds)) in
    prev +:+ join EmptyString (map log (updates events))
    = nth (polls events) (prev :: map log_of ds) prev.
Proof.
  induction ds as [|d ds IH]; intros prev Hgrow.
  - simpl. apply append_nil_r.
  - destruct Hgrow as [[delta Hd] Hgrow].
    destruct (make_update_delta _ _ _ Hd) as [Hlog Hlen].
    cbn [map stream_reload_log]. fold (log_of d). rewrite Hlen.
    destruct (is_complete (make_update false (String.length prev) d)).
    + cbn [fst updates polls map join nth]. now rewrite Hlog, Hd.
    + specialize (IH _ Hgrow). cbn zeta in IH.
      pose proof (stream_reload_log_shape false (map Answered ds)
                    (String.length (log_of d))) as Hshape.
      destruct (stream_reload_log false (String.length (log_of d))
                  (map Answered ds)) as [ev o].
      destruct (Hshape _ _ eq_refl) as (_ & Hle & _).
      rewrite length_map in Hle.
      cbn [fst updates polls map] in IH |- *.
      change (nth (S (polls ev)) (prev :: log_of d :: map log_of ds) prev)
        with (nth (polls ev) (log_of d :: map log_of ds) prev).
      rewrite (nth_indep _ prev (log_of d))
        by (simpl; rewrite length_map; lia).
      rewrite <- IH, Hlog, Hd.
      destruct (map log (updates ev)) as [|l ls] eqn:Hls.
      * cbn [join]. now rewrite !append_nil_r.
      * change (join EmptyString (delta :: l :: ls))
          with (delta +:+ join EmptyString (l :: ls)).
        now rewrite append_assoc.
Qed.

(** Without [clear_on_update], as long as every polled log extends the one
    polled before it, the logs of the updates put end to end are the log of
    the last poll made: a consumer that appends them shows every character
    of the log once. *)
Theorem stream_reload_log_appended (ds : list log_data) :
  growing EmptyString ds ->
  let events := fst (stream_reload_log false 0 (map Answered ds)) in
  join EmptyString (map log (updates events))
  = nth (polls events) (EmptyString :: map log_of ds) EmptyString.
Proof. intros Hgrow. exact (stream_reload_log_deltas ds EmptyString Hgrow). Qed.

Lemma stream_reload_log_appended_witness :
  let ds := [MkLogData (Some "RUNNING") (Some line1);
             MkLogData (Some "RUNNING") (Some line1_line2);
             MkLogData (Some "SUCCEEDED") (Some line1_line2)] in
  let events := fst (stream_reload_log false 0 (map Answered ds)) in
  join EmptyString (map log (updates events))
  = nth (polls events) (EmptyString :: map log_of ds) EmptyString.
Proof.
  apply (stream_reload_log_appended
           [MkLogData (Some "RUNNING") (Some line1);
            MkLogData (Some "RUNNING") (Some line1_line2);
            MkLogData (Some "SUCCEEDED") (Some line1_line2)]).
  simpl. repeat split.
  - now exists line1.
  - now exists line2.
  - now exists EmptyString.
Defined.


(** ** A resolved application *)

Lemma list_apps_one (app : catalog_item) (acc out : string) :
  list_apps [app] acc = Ok out ->
  exists name rid : string,
    item_name app = Some name /\ item_resourceId app = Some rid.
Proof.
  cbn [list_apps]. destruct (item_name app) as [name|]; [|discriminate].
  destruct (item_resourceId app) as [rid|]; [|discriminate]. eauto.
Qed.

(** When [get_app_by_name] returns, the catalogue has answered with exactly
    one entry, which has a name, a resource identifier and a space
    identifier.  The record returned carries them, with a sanitised name
    free of the replaced characters, and the type and name of the space as
    the spaces endpoint gives them when the space identifier is not
    empty. *)
Theorem get_app_by_name_returns
    (get_space_type : string -> result space_info)
    (data : option (list catalog_item)) (app_name : string)
    (app_id : option string) (a : app_dict) :
  get_app_by_name get_space_type data app_name app_id = Ok a ->
  exists (app : catalog_item) (name rid sid : string),
    default [] data = [app]
    /\ item_name app = Some name /\ item_resourceId app = Some rid
    /\ item_spaceId app = Some sid
    /\ sanitizedAppName a = sanitize name
    /\ any_unsafe (sanitizedAppName a) = false
    /\ appName a = Some name /\ appId a = Some rid
    /\ appItemId a = item_id app /\ spaceId a = Some sid
    /\ (sid = EmptyString -> spaceType a = None /\ spaceName a = None)
    /\ (sid <> EmptyString ->
        exists (sp : space_info) (ty nm : string),
          get_space_type sid = Ok sp
          /\ space_type sp = Some ty /\ space_name sp = Some nm
          /\ spaceType a = Some ty /\ spaceName a = Some nm).
Proof.
  unfold get_app_by_name. intros H.
  destruct (default [] data) as [|app others]; [discriminate H|].
  destruct (list_apps (app :: others) EmptyString) as [out|e] eqn:Hl;
    [|discriminate H].
  cbn [bind] in H.
  destruct others as [|app' others]; [|discriminate H].
  destruct (list_apps_one _ _ _ Hl) as (name & rid & Hn & Hr).
  cbn [List.length Nat.ltb Nat.leb spaceId] in H.
  destruct (item_spaceId app) as [sid|] eqn:Hs; [|discriminate H].
  exists app, name, rid, sid.
  destruct sid as [|c sid].
  - cbn in H. injection H as <-. cbn. rewrite Hn, Hr. cbn.
    repeat split; trivial; try apply sanitize_safe.
    intros Hne. now contradiction Hne.
  - cbn [String.length Nat.ltb Nat.leb] in H.
    destruct (get_space_type (String c sid)) as [sp|e] eqn:Hsp;
      [|discriminate H].
    cbn [bind subscript] in H.
    destruct (space_type sp) as [ty|] eqn:Hty; [|discriminate H].
    destruct (space_name sp) as [nm|] eqn:Hnm; [|discriminate H].
    cbn in H. injection H as <-. cbn. rewrite Hn, Hr. cbn.
    repeat split; trivial; try apply sanitize_safe; try discriminate.
    intros _. exists sp, ty, nm. repeat split; trivial.
Qed.

Lemma get_app_by_name_returns_witness :
  exists (app : catalog_item) (name rid sid : string),
    default [] (Some [MkItem (Some "Sales: EU") (Some "id-1") (Some "item-1")
                        (Some "space-1")])
    = [app]
    /\ item_name app = Some name /\ item_resourceId app = Some rid
    /\ item_spaceId app = Some sid
    /\ sanitize "Sales: EU" = sanitize name.
Proof.
  destruct (get_app_by_name_returns
              (fun _ => Ok (MkSpace (Some "shared") (Some "Team")))
              (Some [MkItem (Some "Sales: EU") (Some "id-1") (Some "item-1")
                       (Some "space-1")])
              "Sales" None
              (MkApp "Sales_ EU" (Some "Sales: EU") (Some "id-1")
                 (Some "item-1") (Some "space-1") (Some "shared")
                 (Some "Team")) eq_refl)
    as (app & name & rid & sid & H1 & H2 & H3 & H4 & H5 & _).
  exists app, name, rid, sid. repeat split; trivial.
Defined.

(** A lookup that matches one application outside any space fails although
    the application was found: the entry has no space identifier, and the
    length of [None] is asked for. *)
Theorem get_app_by_name_without_space
    (get_space_type : string -> result space_info) (app : catalog_item)
    (app_name : string) (app_id : option string) :
  has_name_and_id app ->
  item_spaceId app = None ->
  get_app_by_name get_space_type (Some [app]) app_name app_id
  = Raise TypeError.
Proof.
  intros [[name Hn] [rid Hr]] Hs. unfold get_app_by_name.
  cbn [default from_option id list_apps]. rewrite Hn, Hr.
  cbn [subscript bind List.length Nat.ltb Nat.leb spaceId]. now rewrite Hs.
Qed.

Lemma get_app_by_name_without_space_witness :
  get_app_by_name (fun _ => Ok (MkSpace None None))
    (Some [MkItem (Some "Sales") (Some "id-1") (Some "item-1") None])
    "Sales" None
  = Raise TypeError.
Proof.
  apply (get_app_by_name_without_space (fun _ => Ok (MkSpace None None))
           (MkItem (Some "Sales") (Some "id-1") (Some "item-1") None));
    [split; eexists; reflexivity | reflexivity].
Defined.


(** ** An order list *)

Lemma file_dict_get_In (qvs_files : list qvs_file) (tab_name : string)
    (f : qvs_file) :
  file_dict_get qvs_files tab_name = Some f ->
  In f qvs_files /\ stem f = tab_name.
Proof.
  unfold file_dict_get. intros H. apply find_some in H as [Hin Heq].
  split; [now apply in_rev | now apply String.eqb_eq].
Qed.

Lemma fold_left_app_prefix {A B : Type} (step : list A -> B -> list A)
    (l : list B) :
  (forall acc b, exists extra, step acc b = acc ++ extra) ->
  forall acc : list A, exists extra, fold_left step l acc = acc ++ extra.
Proof.
  intros Hstep. induction l as [|b l IH]; intros acc.
  - exists []. simpl. now rewrite app_nil_r.
  - simpl. destruct (Hstep acc b) as [e1 ->].
    destruct (IH (acc ++ e1)) as [e2 ->].
    exists (e1 ++ e2). now rewrite app_assoc.
Qed.

Lemma named_files_from (qvs_files : list qvs_file) (tab_order : list string) :
  forall acc : list qvs_file,
    (forall f, In f acc -> In f qvs_files) ->
    forall f,
      In f (fold_left (fun ordered_files tab_name =>
                         match file_dict_get qvs_files tab_name with
                         | Some f => ordered_files ++ [f]
                         | None => ordered_files
                         end) tab_order acc) ->
      In f qvs_files.
Proof.
  induction tab_order as [|name order IH]; intros acc Hacc f Hf;
    [now apply Hacc|].
  cbn [fold_left] in Hf. apply (IH _) in Hf; [exact Hf|].
  intros g Hg.
  destruct (file_dict_get qvs_files name) as [h|] eqn:Hh; [|now apply Hacc].
  apply in_app_or in Hg as [Hg|[<-|[]]]; [now apply Hacc|].
  now apply file_dict_get_In in Hh.
Qed.

Lemma remaining_files_from (qvs_files files : list qvs_file) :
  forall acc : list qvs_file,
    (forall f, In f acc -> In f qvs_files) ->
    (forall f, In f files -> In f qvs_files) ->
    forall f,
      In f (fold_left (fun ordered_files f =>
                         if existsb (same_file f) ordered_files
                         then ordered_files else ordered_files ++ [f])
              files acc) ->
      In f qvs_files.
Proof.
  induction files as [|h files IH]; intros acc Hacc Hfiles f Hf;
    [now apply Hacc|].
  cbn [fold_left] in Hf. apply IH in Hf; trivial.
  - intros g Hg. destruct (existsb (same_file h) acc); [now apply Hacc|].
    apply in_app_or in Hg as [Hg|[<-|[]]]; [now apply Hacc|].
    apply Hfiles. now left.
  - intros g Hg. apply Hfiles. now right.
Qed.

Lemma remaining_files_cover (files : list qvs_file) :
  forall (acc : list qvs_file) (f : qvs_file),
    In f files \/ (exists g, In g acc /\ same_file f g = true) ->
    exists g,
      In g (fold_left (fun ordered_files f =>
                         if existsb (same_file f) ordered_files
                         then ordered_files else ordered_files ++ [f])
              files acc)
      /\ same_file f g = true.
Proof.
  induction files as [|h files IH]; intros acc f Hf.
  - destruct Hf as [[]|Hf]. exact Hf.
  - cbn [fold_left]. apply IH.
    destruct Hf as [[->|Hin]|(g & Hg & Hfg)].
    + right. destruct (existsb (same_file f) acc) eqn:He.
      * apply existsb_exists in He as (g & Hg & Hfg). now exists g.
      * exists f. split; [apply in_or_app; right; now left|].
        apply String.eqb_refl.
    + now left.
    + right. exists g. split; [|exact Hfg].
      destruct (existsb (same_file h) acc); [exact Hg|].
      apply in_or_app. now left.
Qed.

Lemma order_by_tab_order_In (tab_order : list string)
    (qvs_files : list qvs_file) :
  List.NoDup (map stem qvs_files) ->
  forall f, In f (order_by_tab_order tab_order qvs_files) <-> In f qvs_files.
Proof.
  intros Hnd f. unfold order_by_tab_order. split.
  - apply remaining_files_from; [|trivial].
    apply named_files_from. intros g [].
  - intros Hf.
    destruct (remaining_files_cover qvs_files
                (fold_left (fun ordered_files tab_name =>
                              match file_dict_get qvs_files tab_name with
                              | Some f => ordered_files ++ [f]
                              | None => ordered_files
                              end) tab_order []) f (or_introl Hf))
      as (g & Hg & Hfg).
    assert (Hgin : In g qvs_files).
    { revert Hg. apply remaining_files_from; [|trivial].
      apply named_files_from. intros h []. }
    assert (Heq : f = g); [|now subst g].
    apply String.eqb_eq in Hfg.
    clear -Hnd Hf Hgin Hfg. induction qvs_files as [|h files IH];
      [contradiction Hf|].
    inversion Hnd as [|? ? Hnotin Hnd']; subst.
    destruct Hf as [->|Hf], Hgin as [->|Hgin]; trivial.
    + exfalso. apply Hnotin. rewrite Hfg. now apply in_map.
    + exfalso. apply Hnotin. rewrite <- Hfg. now apply in_map.
    + now apply IH.
Qed.

Lemma order_by_tab_order_head (tab_name : string) (tab_order : list string)
    (qvs_files : list qvs_file) (f : qvs_file) :
  file_dict_get qvs_files tab_name = Some f ->
  hd_error (order_by_tab_order (tab_name :: tab_order) qvs_files) = Some f.
Proof.
  intros Hf. unfold order_by_tab_order. cbn [fold_left]. rewrite Hf.
  cbn [app].
  destruct (fold_left_app_prefix
              (fun ordered_files tab_name =>
                 match file_dict_get qvs_files tab_name with
                 | Some f => ordered_files ++ [f]
                 | None => ordered_files
                 end) tab_order) with (acc := [f]) as [e1 ->].
  { intros acc b. destruct (file_dict_get qvs_files b); [eauto|].
    exists []. now rewrite app_nil_r. }
  destruct (fold_left_app_prefix
              (fun ordered_files f =>
                 if existsb (same_file f) ordered_files
                 then ordered_files else ordered_files ++ [f])
              qvs_files) with (acc := [f] ++ e1) as [e2 ->].
  { intros acc b. destruct (existsb (same_file b) acc); [|eauto].
    exists []. now rewrite app_nil_r. }
  reflexivity.
Qed.

(** With an order list, [combine_tabs_from_files] still reads every file of
    the directory and no other: the files it processes are those of the
    listing.  The file named first in the list, when the directory has it,
    is processed first. *)
Theorem combine_order_keeps_files (tab_order : list string)
    (qvs_files : list qvs_file) :
  List.NoDup (map stem qvs_files) ->
  (forall f,
      In f (combine_order (Some tab_order) qvs_files) <-> In f qvs_files)
  /\ (forall (tab_name : string) (rest : list string) (f : qvs_file),
         tab_order = tab_name :: rest ->
         In f qvs_files -> stem f = tab_name ->
         hd_error (combine_order (Some tab_order) qvs_files) = Some f).
Proof.
  intros Hnd. split.
  - intros f. destruct tab_order as [|name order].
    + cbn [combine_order]. split; apply Permutation_in;
        [apply sorted_perm | symmetry; apply sorted_perm].
    + now apply order_by_tab_order_In.
  - intros name rest f -> Hf Hstem. cbn [combine_order].
    apply order_by_tab_order_head.
    destruct (file_dict_get qvs_files name) as [g|] eqn:Hg.
    + apply file_dict_get_In in Hg as [Hgin Hgs].
      f_equal. clear -Hnd Hf Hgin Hgs Hstem. subst name.
      induction qvs_files as [|h files IH]; [contradiction Hf|].
      inversion Hnd as [|? ? Hnotin Hnd']; subst.
      destruct Hf as [->|Hf], Hgin as [->|Hgin]; trivial.
      * exfalso. apply Hnotin. rewrite <- Hgs. now apply in_map.
      * exfalso. apply Hnotin. rewrite Hgs. now apply in_map.
      * now apply IH.
    + exfalso. unfold file_dict_get in Hg.
      assert (Hfalse : String.eqb (stem f) name = false)
        by (apply (find_none _ _ Hg f); now apply in_rev in Hf).
      apply String.eqb_neq in Hfalse. now apply Hfalse.
Qed.

Lemma combine_order_keeps_files_witness :
  hd_error (combine_order (Some ["1___B"; "0___A"]) two_tabs)
  = Some ("1___B", "y").
Proof.
  refine (proj2 (combine_order_keeps_files ["1___B"; "0___A"] two_tabs _)
            "1___B" ["0___A"] ("1___B", "y") eq_refl _ eq_refl).
  - repeat constructor; simpl; intuition discriminate.
  - right. left. reflexivity.
Defined.


(** ** The script fetched *)

Lemma fetch_script_returns
    (scripts_of : string -> response (option (list script_entry)))
    (script_of : string -> string -> response (option string))
    (app_info : app_dict) (s : string) :
  fetch_script scripts_of script_of app_info = Ok s <->
  exists first rest script_id,
    let app := format_value (appId app_info) in
    raise_for_status (resp_status (scripts_of app)) = Ok tt /\
    resp_json (scripts_of app) = Some (first :: rest) /\
    entry_scriptId first = Some script_id /\
    script_id <> EmptyString /\
    raise_for_status (resp_status (script_of app script_id)) = Ok tt /\
    resp_json (script_of app script_id) = Some s.
Proof.
  unfold fetch_script. cbv zeta. split.
  - destruct (raise_for_status (resp_status (scripts_of _))) as [[]|e] eqn:E1;
      cbn [bind]; [|discriminate].
    destruct (resp_json (scripts_of _)) as [[|first rest]|] eqn:E2;
      cbn [default from_option id]; try discriminate.
    destruct (entry_scriptId first) as [script_id|] eqn:E3;
      cbn [no_script_id]; [|discriminate].
    destruct (is_empty script_id) eqn:E4; [discriminate|].
    cbn [format_value default from_option id].
    destruct (raise_for_status (resp_status (script_of _ _))) as [[]|e] eqn:E5;
      cbn [bind]; [|discriminate].
    destruct (resp_json (script_of _ _)) as [s'|] eqn:E6;
      cbn [subscript]; [|discriminate].
    intros [= <-]. exists first, rest, script_id.
    repeat split; auto. intros ->. discriminate.
  - intros (first & rest & script_id & H1 & H2 & H3 & H4 & H5 & H6).
    rewrite H1, H2. cbn [default from_option id bind]. rewrite H3.
    cbn [no_script_id].
    destruct script_id as [|c script_id]; [contradiction|].
    cbn [is_empty format_value default from_option id] in *. now rewrite H5, H6.
Qed.

(** [get_script] returns a text exactly when both requests are answered
    without an error status, the array of scripts has a first entry with a
    script identifier that is not empty, and the answer fetched for that
    identifier has a script, which is the text returned: the entries after
    the first play no role. *)
Theorem get_script_returns
    (scripts_of : string -> response (option (list script_entry)))
    (script_of : string -> string -> response (option string))
    (app_info : app_dict) (tree : scripts_tree) (s : string) :
  snd (get_script (Ok app_info) scripts_of script_of tree) = Ok s <->
  exists first rest script_id,
    let app := format_value (appId app_info) in
    raise_for_status (resp_status (scripts_of app)) = Ok tt /\
    resp_json (scripts_of app) = Some (first :: rest) /\
    entry_scriptId first = Some script_id /\
    script_id <> EmptyString /\
    raise_for_status (resp_status (script_of app script_id)) = Ok tt /\
    resp_json (script_of app script_id) = Some s.
Proof.
  rewrite <- fetch_script_returns. reflexivity.
Qed.

Lemma get_script_returns_witness :
  snd (get_script
         (Ok (MkApp "Sales" (Some "Sales") (Some "id-1") (Some "item-1")
                (Some "space-1") (Some "shared") (Some "Team")))
         (fun _ => MkResponse 200
                     (Some [MkScriptEntry (Some "s-2");
                            MkScriptEntry (Some "s-1")]))
         (fun _ script_id => MkResponse 200 (Some ("text of " +:+ script_id)))
         ∅)
  = Ok "text of s-2".
Proof.
  apply (proj2 (get_script_returns _ _ _ _ _)).
  exists (MkScriptEntry (Some "s-2")), [MkScriptEntry (Some "s-1")], "s-2".
  repeat split. discriminate.
Defined.

(** ** The directories after a command *)

Lemma get_command_unfold
    (scripts_of : string -> response (option (list script_entry)))
    (script_of : string -> string -> response (option string))
    (app_info : app_dict) (tree : scripts_tree) :
  get_command (Ok app_info) scripts_of script_of tree
  = let emptied := delete (sanitizedAppName app_info) tree in
    match fetch_script scripts_of script_of app_info with
    | Raise e => (emptied, Raise e)
    | Ok app_script =>
        match appId app_info with
        | None => (emptied, Raise TypeError)
        | Some app_id =>
            (<[sanitizedAppName app_info := {[app_id := get app_script]}]>
               emptied, get_outcome app_script)
        end
    end.
Proof.
  unfold get_command, get_script, empty_script_directory, save_tabs_in_tree,
    fs_bind, fs_lift, fs_ret. cbv beta iota zeta.
  rewrite delete_delete_eq.
  destruct (fetch_script scripts_of script_of app_info) as [app_script|e];
    [|reflexivity].
  unfold output_dir_of.
  destruct (appId app_info) as [app_id|]; [|reflexivity].
  cbn [fst snd]. rewrite lookup_delete_eq. cbn [default from_option id].
  rewrite lookup_empty. cbn [default from_option id]. rewrite insert_empty.
  unfold get_outcome, get. cbv zeta.
  now destruct (snd (save_tabs_as_qvs_files _ ∅)).
Qed.

(** The command [get] for an application whose directory names are proper
    leaves every other directory of [scripts/] as it was.  When the script
    cannot be fetched, or the application has no identifier, the command
    raises and the directory named after the application is gone, with the
    scripts kept there for any identifier.  Once the script is fetched,
    that directory holds one directory only, named by the identifier of the
    application, with the files that [get] writes from the script, and the
    command ends as that writing ends: when a file cannot be opened it
    raises and leaves the files written before. *)
Theorem get_command_replaces_directory
    (scripts_of : string -> response (option (list script_entry)))
    (script_of : string -> string -> response (option string))
    (app_info : app_dict) (tree : scripts_tree) :
  proper_name (sanitizedAppName app_info) ->
  (forall app_id, appId app_info = Some app_id -> proper_name app_id) ->
  let after := get_command (Ok app_info) scripts_of script_of tree in
  let fetched := snd (get_script (Ok app_info) scripts_of script_of tree) in
  (forall other, other <> sanitizedAppName app_info ->
     fst after !! other = tree !! other)
  /\ (forall app_script app_id,
         fetched = Ok app_script ->
         appId app_info = Some app_id ->
         fst after !! sanitizedAppName app_info
         = Some {[app_id := get app_script]}
         /\ snd after = get_outcome app_script)
  /\ ((exists e, fetched = Raise e) \/ appId app_info = None ->
      fst after !! sanitizedAppName app_info = None
      /\ exists e, snd after = Raise e).
Proof.
  intros _ _. cbv zeta. rewrite get_command_unfold. cbv zeta.
  change (snd (get_script (Ok app_info) scripts_of script_of tree))
    with (fetch_script scripts_of script_of app_info).
  destruct (fetch_script scripts_of script_of app_info) as [app_script|e].
  - destruct (appId app_info) as [app_id|]; cbn [fst snd].
    + split; [|split].
      * intros other Hne. rewrite lookup_insert_ne by congruence.
        now rewrite lookup_delete_ne by congruence.
      * intros ? ? [= <-] [= <-]. now rewrite lookup_insert_eq.
      * intros [[e He]|Hid]; discriminate.
    + split; [|split].
      * intros other Hne. now rewrite lookup_delete_ne by congruence.
      * intros ? ? _ Hid. discriminate Hid.
      * intros _. rewrite lookup_delete_eq. eauto.
  - cbn [fst snd]. split; [|split].
    + intros other Hne. now rewrite lookup_delete_ne by congruence.
    + intros ? ? Hf. discriminate Hf.
    + intros _. rewrite lookup_delete_eq. eauto.
Qed.

Lemma proper_name_Sales : proper_name "Sales".
Proof. repeat split; try discriminate. unfold NAME_MAX. simpl. lia. Qed.

Lemma proper_name_id_1 : proper_name "id-1".
Proof. repeat split; try discriminate. unfold NAME_MAX. simpl. lia. Qed.

Lemma get_command_replaces_directory_witness :
  let after :=
    get_command
      (Ok (MkApp "Sales" (Some "Sales") (Some "id-1") (Some "item-1")
             (Some "space-1") (Some "shared") (Some "Team")))
      (fun _ => MkResponse 200 (Some [MkScriptEntry (Some "s-1")]))
      (fun _ _ => MkResponse 200 (Some script_long_name))
      {["Sales" := {["id-1" := {["Main" := "LOAD 0;"]}]}]} in
  fst after !! "Sales" = Some {["id-1" := get script_long_name]}
  /\ snd after = get_outcome script_long_name.
Proof.
  apply (get_command_replaces_directory
           (fun _ => MkResponse 200 (Some [MkScriptEntry (Some "s-1")]))
           (fun _ _ => MkResponse 200 (Some script_long_name))
           (MkApp "Sales" (Some "Sales") (Some "id-1") (Some "item-1")
              (Some "space-1") (Some "shared") (Some "Team"))
           {["Sales" := {["id-1" := {["Main" := "LOAD 0;"]}]}]}).
  - exact proper_name_Sales.
  - intros app_id [= <-]. exact proper_name_id_1.
  - reflexivity.
  - reflexivity.
Defined.

Lemma get_app_by_name_sanitized
    (get_space_type : string -> result space_info)
    (data : option (list catalog_item)) (app_name : string)
    (app_id : option string) (app_info : app_dict) :
  get_app_by_name get_space_type data app_name app_id = Ok app_info ->
  sanitizedAppName app_info
  = sanitize (default EmptyString (appName app_info)).
Proof.
  unfold get_app_by_name.
  destruct (default [] data) as [|app others]; [discriminate|].
  destruct (list_apps (app :: others) EmptyString) as [m|e];
    cbn [bind]; [|discriminate].
  destruct (1 <? List.length (app :: others)); [discriminate|].
  cbn [spaceId].
  destruct (item_spaceId app) as [sid|]; [|discriminate].
  destruct (0 <? String.length sid).
  - destruct (get_space_type sid) as [sp|e]; cbn [bind]; [|discriminate].
    destruct (space_type sp) as [ty|]; cbn [bind subscript]; [|discriminate].
    destruct (space_name sp) as [nm|]; cbn [bind subscript]; [|discriminate].
    now intros [= <-].
  - now intros [= <-].
Qed.

(** The command [rem] for one application also removes the scripts kept for
    any other application whose name differs from its name by characters
    that are unsafe in a file name only: the directory that it removes is
    named after the sanitised name, without the identifier. *)
Theorem rem_command_removes_namesakes
    (get_space_type : string -> result space_info)
    (data data' : option (list catalog_item)) (app_name app_name' : string)
    (app_id app_id' : option string) (a b : app_dict) (name name' : string)
    (tree : scripts_tree) :
  get_app_by_name get_space_type data app_name app_id = Ok a ->
  get_app_by_name get_space_type data' app_name' app_id' = Ok b ->
  appName a = Some name ->
  appName b = Some name' ->
  sanitize name = sanitize name' ->
  rem_command (Ok a) tree = (delete (sanitizedAppName b) tree, Ok tt) /\
  fst (rem_command (Ok a) tree) !! sanitizedAppName b = None.
Proof.
  intros Ha Hb Hn Hn' Hs.
  apply get_app_by_name_sanitized in Ha, Hb.
  rewrite Hn in Ha. rewrite Hn' in Hb. cbn [default from_option id] in Ha, Hb.
  assert (Heq : sanitizedAppName a = sanitizedAppName b) by congruence.
  unfold rem_command, empty_script_directory, fs_bind, fs_lift.
  cbn [fst]. rewrite Heq. split; [reflexivity|apply lookup_delete_eq].
Qed.


Lemma rem_command_removes_namesakes_witness :
  fst (rem_command
         (Ok (MkApp "Sales_EU" (Some "Sales/EU") (Some "id-1")
                (Some "item-1") (Some "space-1") (Some "shared")
                (Some "Team")))
         {["Sales_EU" := {["id-2" := {["Main" := "LOAD 1;"]}]}]})
  !! "Sales_EU" = None.
Proof.
  exact (proj2
    (rem_command_removes_namesakes
       (fun _ => Ok (MkSpace (Some "shared") (Some "Team")))
       (Some [MkItem (Some "Sales/EU") (Some "id-1") (Some "item-1")
                (Some "space-1")])
       (Some [MkItem (Some "Sales:EU") (Some "id-2") (Some "item-2")
                (Some "space-1")])
       "Sales" "Sales" None None
       (MkApp "Sales_EU" (Some "Sales/EU") (Some "id-1")
          (Some "item-1") (Some "space-1") (Some "shared") (Some "Team"))
       (MkApp "Sales_EU" (Some "Sales:EU") (Some "id-2")
          (Some "item-2") (Some "space-1") (Some "shared") (Some "Team"))
       "Sales/EU" "Sales:EU"
       {["Sales_EU" := {["id-2" := {["Main" := "LOAD 1;"]}]}]}
       eq_refl eq_refl eq_refl eq_refl eq_refl)).
Defined.

(** ** The published application *)

Lemma get_app_published_id_inv (app_info : app_dict)
    (items_of : string -> response (option (list catalog_item)))
    (published_of : string -> response (option (list published_item)))
    (resource_id : string) :
  get_app_published_id (Ok app_info) items_of published_of = Ok resource_id
  <->
  exists item items app_item_id first rest,
    let response := items_of (format_value (appId app_info)) in
    raise_for_status (resp_status response) = Ok tt /\
    resp_json response = Some (item :: items) /\
    item_id item = Some app_item_id /\
    raise_for_status (resp_status (published_of app_item_id)) = Ok tt /\
    resp_json (published_of app_item_id) = Some (first :: rest) /\
    published_resourceId first = Some resource_id.
Proof.
  unfold get_app_published_id. cbv zeta. cbn [bind]. split.
  - destruct (raise_for_status (resp_status (items_of _))) as [[]|e] eqn:E1;
      cbn [bind]; [|discriminate].
    destruct (resp_json (items_of _)) as [[|item items]|] eqn:E2;
      cbn [bind]; try discriminate.
    destruct (item_id item) as [app_item_id|] eqn:E3;
      cbn [bind subscript]; [|discriminate].
    destruct (raise_for_status (resp_status (published_of _)))
      as [[]|e] eqn:E4; cbn [bind]; [|discriminate].
    destruct (resp_json (published_of _)) as [[|first rest]|] eqn:E5;
      cbn [default from_option id]; try discriminate.
    destruct (published_resourceId first) as [r|] eqn:E6; [|discriminate].
    intros [= <-].
    exists item, items, app_item_id, first, rest. repeat split; trivial.
  - intros (item & items & app_item_id & first & rest
            & H1 & H2 & H3 & H4 & H5 & H6).
    rewrite H1, H2. cbn [bind]. rewrite H3. cbn [bind subscript].
    rewrite H4, H5. cbn [bind default from_option id]. now rewrite H6.
Qed.

(** [get_app_published_id] returns an identifier exactly when both requests
    are answered without an error status, the search of the item gives a
    first item with an [id], and the published items asked for that [id]
    have a first entry with a [resourceId], which is the identifier
    returned: the items and the published entries after the first play no
    role. *)
Theorem get_app_published_id_returns (app_info : app_dict)
    (items_of : string -> response (option (list catalog_item)))
    (published_of : string -> response (option (list published_item)))
    (resource_id : string) :
  get_app_published_id (Ok app_info) items_of published_of = Ok resource_id
  <->
  exists item items app_item_id first rest,
    let response := items_of (format_value (appId app_info)) in
    raise_for_status (resp_status response) = Ok tt /\
    resp_json response = Some (item :: items) /\
    item_id item = Some app_item_id /\
    raise_for_status (resp_status (published_of app_item_id)) = Ok tt /\
    resp_json (published_of app_item_id) = Some (first :: rest) /\
    published_resourceId first = Some resource_id.
Proof.
  apply get_app_published_id_inv.
Qed.

Lemma get_app_published_id_returns_witness :
  get_app_published_id
    (Ok (MkApp "Sales" (Some "Sales") (Some "id-1") (Some "item-1")
           (Some "space-1") (Some "shared") (Some "Team")))
    (fun _ => MkResponse 200
                (Some [MkItem (Some "Sales") (Some "id-1") (Some "item-1")
                         (Some "space-1")]))
    (fun _ => MkResponse 200
                (Some [MkPublished (Some "id-9"); MkPublished (Some "id-8")]))
  = Ok "id-9".
Proof.
  apply (proj2 (get_app_published_id_returns _ _ _ _)).
  exists (MkItem (Some "Sales") (Some "id-1") (Some "item-1")
            (Some "space-1")), [], "item-1",
    (MkPublished (Some "id-9")), [MkPublished (Some "id-8")].
  repeat split.
Defined.

Lemma raise_for_status_200 : raise_for_status 200 = Ok tt.
Proof. reflexivity. Qed.

(** [publish_app] returns exactly when the application is resolved, its
    published counterpart is found, and the request to publish is answered
    with the status 200 and a body that is a JSON object whose key
    [attributes], when it is there, has an object as value.  Any other
    status makes it raise, the statuses of success other than 200
    included. *)
Theorem publish_app_returns_on_200 (app : result app_dict)
    (items_of : string -> response (option (list catalog_item)))
    (published_of : string -> response (option (list published_item)))
    (publish_of : string -> string -> publish_answer) :
  publish_app app items_of published_of publish_of = Ok tt <->
  exists app_info app_published_id,
    app = Ok app_info /\
    get_app_published_id app items_of published_of = Ok app_published_id /\
    let response :=
      publish_of (format_value (appId app_info)) app_published_id in
    publish_status response = 200 /\
    object_with_attributes (publish_json response).
Proof.
  unfold publish_app, object_with_attributes. split.
  - destruct app as [app_info|e]; cbn [bind]; [|discriminate].
    destruct (get_app_published_id (Ok app_info) items_of published_of)
      as [app_published_id|e]; cbn [bind]; [|discriminate].
    cbv zeta. unfold decode_body.
    destruct (raise_for_status (publish_status (publish_of _ _)))
      as [[]|e]; cbn [bind]; [|discriminate].
    destruct (publish_json (publish_of _ _)) as [|[[|]|]|] eqn:Hbody;
      cbn [bind get_attributes default from_option id]; try discriminate;
      (destruct (publish_status (publish_of _ _) =? 200) eqn:E;
       cbn [negb bind get_name]; [|discriminate]);
      try discriminate;
      intros _; exists app_info, app_published_id;
      (repeat split; [now apply Nat.eqb_eq|auto]).
  - intros (app_info & app_published_id & -> & H2 & H3 & H4).
    cbn [bind]. rewrite H2. cbn [bind]. cbv zeta. unfold decode_body.
    rewrite H3, raise_for_status_200. cbn [bind].
    destruct H4 as [-> | ->]; reflexivity.
Qed.

Lemma publish_app_returns_on_200_witness :
  publish_app
    (Ok (MkApp "Sales" (Some "Sales") (Some "id-1") (Some "item-1")
           (Some "space-1") (Some "shared") (Some "Team")))
    (fun _ => MkResponse 200
                (Some [MkItem (Some "Sales") (Some "id-1") (Some "item-1")
                         (Some "space-1")]))
    (fun _ => MkResponse 200 (Some [MkPublished (Some "id-9")]))
    (fun _ _ => MkPublishAnswer 200 "{}" (JsonObject None))
  = Ok tt.
Proof.
  apply (proj2 (publish_app_returns_on_200 _ _ _ _)).
  eexists _, "id-9". repeat split. now left.
Defined.

(** ** The arguments of the command line *)

Lemma dispatch_with_name (prog tool_to_run app_name : string)
    (rest : list string) (c : command) :
  command_of tool_to_run = Some c ->
  c <> CmdHelp ->
  dispatch (prog :: tool_to_run :: app_name :: rest)
  = Call c app_name match rest with
                    | [app_id] => Some app_id
                    | _ => None
                    end.
Proof.
  intros Hc Hh. unfold dispatch. cbn [nth_error]. rewrite Hc.
  destruct rest as [|app_id [|x rest]]; cbn [List.length Nat.eqb nth_error];
    destruct c; try reflexivity; contradiction.
Qed.

(** Every command but [help] is called with the argument that follows it
    as the name of the application.  The identifier is handed over only when
    exactly one argument follows the name: with more arguments the command
    runs without the identifier, as if none had been given. *)
Theorem dispatch_passes_identifier (prog tool_to_run app_name : string)
    (rest : list string) (c : command) :
  command_of tool_to_run = Some c ->
  c <> CmdHelp ->
  dispatch (prog :: tool_to_run :: app_name :: rest)
  = Call c app_name match rest with
                    | [app_id] => Some app_id
                    | _ => None
                    end.
Proof.
  apply dispatch_with_name.
Qed.

Lemma dispatch_passes_identifier_witness :
  dispatch ["qlik.py"; "get"; "Sales"; "id-1"; "extra"]
  = Call CmdGet "Sales" None.
Proof.
  apply (dispatch_passes_identifier "qlik.py" "get" "Sales"
           ["id-1"; "extra"] CmdGet); [reflexivity | discriminate].
Defined.

(** ** The round trip of a script without marker *)

(** A script without marker comes back from the command [get] followed by
    [combine_tabs_from_files] without an order as its text stripped at both
    ends, with carriage returns for line ends. *)
Theorem get_then_combine_unmarked (scripts_path script : string)
    (g : list qvs_file) :
  finditer script = [] ->
  listing (get script) g ->
  combine_tabs_from_files scripts_path (Some g) None
  = Ok (normalize_eol (strip script)).
Proof.
  apply combine_after_get_no_marker.
Qed.

Lemma get_then_combine_unmarked_witness :
  combine_tabs_from_files "scripts/App/id"
    (Some (map_to_list (get (" LOAD 1;" +:+ String LF "LOAD 2;  ")))) None
  = Ok ("LOAD 1;" +:+ String CR "LOAD 2;").
Proof.
  apply (get_then_combine_unmarked "scripts/App/id"
           (" LOAD 1;" +:+ String LF "LOAD 2;  ")
           (map_to_list (get (" LOAD 1;" +:+ String LF "LOAD 2;  ")))).
  - reflexivity.
  - apply Permutation_refl.
Defined.
